(** * ActivitySim core: expression evaluation, utilities, logit probabilities,
    choices and chunked execution ([activitysim/core/simulate.py])

  A shallow embedding of [simulate.py] and of the callers' side of
  [abm/models/mode_choice.py].  pandas frames are labelled two-dimensional
  arrays; Python exceptions are an explicit outcome; logger calls are
  events of a writer.  The collaborators whose code lives in other modules
  of the repository ([logit], [chunk], [pipeline], [tracing]) are either
  fields of the class [World] or definitions that follow the
  specification document, each marked as such. *)

From Stdlib Require Import QArith Qcanon Qcabs Ascii.
From stdpp Require Import base option list gmap strings pretty.

Set Default Proof Using "Type".

(** ** Python outcomes *)

Module Py.

Inductive exn :=
| AssertionError
| KeyError (label : string)
| AttributeError (attr : string)
| UnboundLocalError (var : string)
| ValueError (msg : string)
| RuntimeError (msg : string)
| OtherError (msg : string).

(** The outcome of a call: an exception propagating to the caller, or a
    returned value. *)
Inductive Exc (A : Type) :=
| Raise (e : exn)
| Ret (a : A).
Arguments Raise {A} e.
Arguments Ret {A} a.

#[export] Instance Exc_ret : MRet Exc := @Ret.
#[export] Instance Exc_bind : MBind Exc := fun A B f m =>
  match m with
  | Raise e => Raise e
  | Ret a => f a
  end.
#[export] Instance Exc_fmap : FMap Exc := fun A B f m =>
  match m with
  | Raise e => Raise e
  | Ret a => Ret (f a)
  end.

(** [assert c] *)
Definition assert (c : bool) : Exc unit :=
  if c then Ret tt else Raise AssertionError.

(** The returned value, forgetting which exception was raised. *)
Definition returned {A} (m : Exc A) : option A :=
  match m with
  | Raise _ => None
  | Ret a => Some a
  end.

(** A loop body run over a list, stopping at the first exception. *)
Fixpoint for_each {A B} (f : A -> Exc B) (l : list A) : Exc (list B) :=
  match l with
  | [] => Ret []
  | x :: l' => y ← f x; ys ← for_each f l'; Ret (y :: ys)
  end.

(** A loop that updates one variable, stopping at the first exception. *)
Fixpoint for_fold {A S} (f : S -> A -> Exc S) (s : S) (l : list A) : Exc S :=
  match l with
  | [] => Ret s
  | x :: l' => s' ← f s x; for_fold f s' l'
  end.

End Py.
Export Py.

(** ** Floating-point values

  numpy's float64 cells, idealised: finite values are exact rationals (no
  rounding), the special values follow IEEE 754 as numpy applies them.
  Signed zeros are not distinguished. *)

Module Float.

Inductive fval :=
| NaN
| NegInf
| PosInf
| Fin (q : Qc).

#[export] Instance fval_eq_dec : EqDecision fval.
Proof. solve_decision. Defined.
#[export] Instance fval_inhabited : Inhabited fval := populate NaN.

Definition fzero : fval := Fin 0%Qc.
Definition fone : fval := Fin 1%Qc.

Definition fneg (x : fval) : fval :=
  match x with
  | NaN => NaN
  | NegInf => PosInf
  | PosInf => NegInf
  | Fin a => Fin (- a)%Qc
  end.

Definition fadd (x y : fval) : fval :=
  match x, y with
  | NaN, _ | _, NaN => NaN
  | PosInf, NegInf | NegInf, PosInf => NaN
  | PosInf, _ | _, PosInf => PosInf
  | NegInf, _ | _, NegInf => NegInf
  | Fin a, Fin b => Fin (a + b)%Qc
  end.

Definition fsub (x y : fval) : fval := fadd x (fneg y).

(** The infinity of the sign of [a] times [inf]; [0 * inf] is invalid. *)
Definition scale_inf (a : Qc) (inf : fval) : fval :=
  match (a ?= 0)%Qc with
  | Eq => NaN
  | Gt => inf
  | Lt => fneg inf
  end.

Definition fmul (x y : fval) : fval :=
  match x, y with
  | NaN, _ | _, NaN => NaN
  | Fin a, Fin b => Fin (a * b)%Qc
  | Fin a, inf | inf, Fin a => scale_inf a inf
  | PosInf, PosInf | NegInf, NegInf => PosInf
  | PosInf, NegInf | NegInf, PosInf => NegInf
  end.

(** Division; numpy divides by zero without raising. *)
Definition fdiv (x y : fval) : fval :=
  match x, y with
  | NaN, _ | _, NaN => NaN
  | Fin a, Fin b =>
      if decide (b = 0%Qc) then scale_inf a PosInf else Fin (a / b)%Qc
  | Fin _, _ => fzero
  | inf, Fin b =>
      match (b ?= 0)%Qc with
      | Lt => fneg inf
      | _ => inf
      end
  | _, _ => NaN
  end.

Definition fabs (x : fval) : fval :=
  match x with
  | NaN => NaN
  | NegInf | PosInf => PosInf
  | Fin a => Fin (Qcabs a)
  end.

(** [x > y]; every comparison with NaN is false. *)
Definition fgtb (x y : fval) : bool :=
  match x, y with
  | NaN, _ | _, NaN => false
  | PosInf, PosInf => false
  | PosInf, _ => true
  | _, PosInf => false
  | NegInf, _ => false
  | Fin _, NegInf => true
  | Fin a, Fin b => bool_decide (b < a)%Qc
  end.

Definition isnan (x : fval) : bool :=
  match x with
  | NaN => true
  | _ => false
  end.

Section Transcendental.
  (** The exponential and the logarithm on finite arguments, as the
      platform's libm rounds them ([exp] may overflow to [PosInf] or
      underflow to zero).  Only their values at the special arguments are
      fixed by IEEE 754. *)
Variable exp_fin : Qc -> fval.
Variable log_pos : Qc -> fval.

  (** [np.exp] *)
Definition fexp (x : fval) : fval :=
    match x with
    | NaN => NaN
    | NegInf => fzero
    | PosInf => PosInf
    | Fin a => exp_fin a
    end.

  (** [np.log] under [np.errstate(divide='ignore')]: the logarithm of zero
      is minus infinity, that of a negative number is invalid. *)
Definition flog (x : fval) : fval :=
    match x with
    | NaN | NegInf => NaN
    | PosInf => PosInf
    | Fin a =>
        match (a ?= 0)%Qc with
        | Eq => NegInf
        | Lt => NaN
        | Gt => log_pos a
        end
    end.
End Transcendental.

(** pandas reductions along a row skip missing values ([skipna=True]). *)
Definition nansum (xs : list fval) : fval :=
  foldl (fun acc x => if isnan x then acc else fadd acc x) fzero xs.

Definition nanprod (xs : list fval) : fval :=
  foldl (fun acc x => if isnan x then acc else fmul acc x) fone xs.

(** numpy's plain sum, as used inside a matrix product. *)
Definition fsum (xs : list fval) : fval := foldl fadd fzero xs.

End Float.
Export Float.

(** ** pandas frames

    A frame is a two-dimensional array with labelled columns and an index:
    [columns] is the header and each row carries its index label and one
    cell per header entry.  A Series taken from a frame is the list of its
    values in row order; every Series that simulate.py assigns to a frame was
    computed from a frame with the same index, so index alignment is
    positional. *)

Module Pandas.

(** Entity keys (the index of a chooser table). *)
Abbreviation key := nat (only parsing).

(** Cells of tables that are not yet coerced to float64. *)
Inductive scalar :=
| SBool (b : bool)
| SInt (z : Z)
| SFloat (x : fval).

#[export] Instance scalar_inhabited : Inhabited scalar := populate (SFloat NaN).

(** [astype(np.float64)] on one cell. *)
Definition to_float (v : scalar) : fval :=
  match v with
  | SBool b => if b then fone else fzero
  | SInt z => Fin (Q2Qc (inject_Z z))
  | SFloat x => x
  end.

Record Frame (I V : Type) := mkFrame {
  columns : list string;
  rows : list (I * list V)
}.
Arguments mkFrame {I V} columns rows.
Arguments columns {I V} f.
Arguments rows {I V} f.

(** A Series that leaves the engine keeps its index. *)
Abbreviation Series A := (list (key * A)).

Section Frames.
Context {I V : Type} `{Inhabited V}.
Implicit Types df : Frame I V.

(** [df.index] *)
Definition index df : list I := (rows df).*1.

(** [len(df)] *)
Definition len df : nat := length (rows df).

(** Every row has one cell per column. *)
Definition well_formed df : Prop :=
  Forall (fun kr => length kr.2 = length (columns df)) (rows df).

(** Position of the first column carrying a label. *)
Fixpoint position (name : string) (labels : list string) : option nat :=
  match labels with
  | [] => None
  | l :: ls => if decide (l = name) then Some 0 else S <$> position name ls
  end.

(** [pd.DataFrame(index=...)] *)
Definition new_frame (idx : list I) : Frame I V :=
  mkFrame [] (map (fun k => (k, [])) idx).

(** [df[name]] *)
Definition getitem df (name : string) : Exc (list V) :=
  match position name (columns df) with
  | None => Raise (KeyError name)
  | Some p => Ret (map (fun kr => kr.2 !!! p) (rows df))
  end.

(** [df[names]] with a list of labels *)
Definition getitems df (names : list string) : Exc (Frame I V) :=
  ps ← for_each (fun n => match position n (columns df) with
                           | None => Raise (KeyError n)
                           | Some p => Ret p
                           end) names;
  Ret (mkFrame names
         (map (fun kr => (kr.1, map (fun p => kr.2 !!! p) ps)) (rows df))).

(** [df[name] = values]: an existing column is replaced in place, a new
    one is appended. *)
Definition setitem df (name : string) (values : list V) : Frame I V :=
  match position name (columns df) with
  | Some p =>
      mkFrame (columns df)
        (zip_with (fun kr v => (kr.1, <[p := v]> kr.2)) (rows df) values)
  | None =>
      mkFrame (columns df ++ [name])
        (zip_with (fun kr v => (kr.1, kr.2 ++ [v])) (rows df) values)
  end.

(** [pd.concat([a, b], axis=1)] of frames over the same index *)
Definition concat_axis1 (a b : Frame I V) : Frame I V :=
  mkFrame (columns a ++ columns b)
    (zip_with (fun kr kr' => (kr.1, kr.2 ++ kr'.2)) (rows a) (rows b)).

(** [df.iloc[start:stop]] *)
Definition iloc df (start stop : nat) : Frame I V :=
  mkFrame (columns df) (take (stop - start) (drop start (rows df))).

(** [pd.DataFrame.from_items(items)] over the index [idx]: one column per
    item, in order. *)
Definition from_items (idx : list I) (items : list (string * list V))
  : Frame I V :=
  mkFrame items.*1 (imap (fun i k => (k, map (fun it => it.2 !!! i) items)) idx).

(** The cell of a row under a label, by name. *)
Definition cell_named (labels : list string) (r : list V) (name : string) : V :=
  match position name labels with
  | Some p => r !!! p
  | None => inhabitant
  end.

End Frames.

Abbreviation DataFrame := (Frame key fval).
Abbreviation Choosers := (Frame key scalar).
(** A model specification: the index holds the expressions, the columns the
    alternatives. *)
Abbreviation Spec := (Frame string scalar).

(** [df.sum(axis=1)] and [df.prod(axis=1)] *)
Definition sum_axis1 {I} (df : Frame I fval) : list fval :=
  map (fun kr => nansum kr.2) (rows df).
Definition prod_axis1 {I} (df : Frame I fval) : list fval :=
  map (fun kr => nanprod kr.2) (rows df).

(** [df.astype(np.float64)] *)
Definition astype_float64 {I} (df : Frame I scalar) : Frame I fval :=
  mkFrame (columns df) (map (fun kr => (kr.1, map to_float kr.2)) (rows df)).

(** The label check of [DataFrame.dot]: pandas takes the union of the left
    columns and the right index and refuses operands one of which lacks a
    label of the union; labels that are not unique can only be matched when
    the two label lists are identical. *)
Definition aligned (left_columns right_index : list string) : bool :=
  if decide (left_columns = right_index) then true
  else
    bool_decide (NoDup left_columns) && bool_decide (NoDup right_index)
    && bool_decide (left_columns ⊆ right_index)
    && bool_decide (right_index ⊆ left_columns).

(** [df.loc[label]] on a frame indexed by strings: the cells of the first
    row carrying the label. *)
Fixpoint loc {V} (rs : list (string * list V)) (label : string)
  : option (list V) :=
  match rs with
  | [] => None
  | (l, r) :: rs' => if decide (l = label) then Some r else loc rs' label
  end.

(** The cell of a string-indexed frame at a row label and a column position. *)
Definition cell_at (right : Frame string fval) (label : string) (j : nat)
  : fval :=
  default NaN (r ← loc (rows right) label; r !! j).

(** [left.dot(right)]: both operands are reindexed on the common labels and
    multiplied as matrices.  pandas orders the common labels itself; the sum
    over them does not depend on that order (lemma [fsum_Permutation]), the
    order of the left columns is used here. *)
Definition dot (left : DataFrame) (right : Frame string fval) : Exc DataFrame :=
  if aligned (columns left) (index right) then
    Ret (mkFrame (columns right)
           (map (fun kr =>
                   (kr.1,
                    imap (fun j _ =>
                            fsum (map (fun e =>
                                         fmul (cell_named (columns left) kr.2 e)
                                              (cell_at right e j))
                                      (columns left)))
                         (columns right)))
                (rows left)))
  else Raise (ValueError "matrices are not aligned").

End Pandas.
Export Pandas.

(** ** The evaluation environment and the collaborators *)

Module Env.

Inductive dtype := Float64.

(** The objects an environment dictionary binds. *)
Inductive pyobj :=
| PyNone
| PyScalar (v : scalar)
| PyStr (s : string)
| PyExprs (l : list string)
| PyFrame (df : Choosers)
| PyDtype (t : dtype)
| PyThisDict          (** the dictionary that holds the binding *)
| PyObject (id : nat). (** any other object: a skim wrapper, a function *)

(** A dictionary of local variables, by value. *)
Abbreviation dict := (gmap string pyobj).

(** What evaluating an expression can yield: a scalar ([np.isscalar]) or a
    Series of one value per row. *)
Inductive pyval :=
| Scalar (v : scalar)
| Values (s : list scalar).

(** Everything the engine calls but does not define.  The interpreters of
    the two kinds of expression belong to Python and pandas; the other
    fields are functions of the repository's modules [logit], [chunk],
    [pipeline] and [tracing]. *)
Class World := {
  (** libm's [exp] and [log] on finite arguments *)
  exp_fin : Qc -> fval;
  log_pos : Qc -> fval;
  (** [eval(source, globals(), locals_d)]: the value or the exception, and
      the dictionary as the evaluation leaves it *)
  py_eval : string -> dict -> Exc pyval * dict;
  (** [df.eval(expr)] *)
  df_eval : string -> Choosers -> Exc (list scalar);
  (** Modelled from the spec: [logit.utils_to_probs] is not part of the
      sources at hand; the spec computes probabilities "per row" from the
      row's utilities, so the row function is the collaborator.  Its
      arguments are [exponentiated], [allow_zero_probs] and the row. *)
  utils_to_probs_row : bool -> bool -> list fval -> Exc (list fval);
  (** Modelled from the spec: the RandomStream of [pipeline], "keyed by
      entity identity, not by position in a chunk": the draw of an entity. *)
  random_for_key : key -> fval;
  (** [chunk.rows_per_chunk(chunk_size, row_size, num_choosers, ...)] *)
  rows_per_chunk : nat -> nat -> nat -> nat;
  (** [tracing.has_trace_targets(df)] *)
  has_trace_targets : Choosers -> bool;
  (** [tracing.extend_trace_label(trace_label, extension)] *)
  extend_trace_label : option string -> string -> option string
}.

(** [np.exp] and [np.log] of the world at hand. *)
Definition exp `{World} : fval -> fval := fexp exp_fin.
Definition log `{World} : fval -> fval := flog log_pos.

End Env.
Export Env.

(** ** Log records and runs *)

Module Log.

Inductive table :=
| TChoosers (df : Choosers)
| TFrame (df : DataFrame)
| TChoices (s : Series nat)
| TValues (s : Series fval).

Inductive event :=
| Info (msg : string)            (** [logger.info] *)
| Warn (msg : string)            (** [logger.warn] *)
| Exception (msg : string)       (** [logger.exception] *)
| BadChoices (trace_label : option string) (tag msg : string)
             (bad_rows : list key)  (** [logit.report_bad_choices] *)
| TraceDf (label : string) (t : table). (** [tracing.trace_df] *)

(** A call that logs: its outcome and the records it wrote, oldest first.
    Debug-level messages, elapsed-time prints and the progress dots are not
    recorded. *)
Record Run (A : Type) := mkRun {
  outcome : Exc A;
  events : list event
}.
Arguments mkRun {A} outcome events.
Arguments outcome {A} r.
Arguments events {A} r.

#[export] Instance Run_ret : MRet Run := fun A a => mkRun (Ret a) [].
#[export] Instance Run_bind : MBind Run := fun A B f m =>
  match outcome m with
  | Raise e => mkRun (Raise e) (events m)
  | Ret a => mkRun (outcome (f a)) (events m ++ events (f a))
  end.

Definition lift {A} (m : Exc A) : Run A := mkRun m [].
Definition tell (e : event) : Run unit := mkRun (Ret tt) [e].
Definition raise {A} (e : exn) : Run A := mkRun (Raise e) [].

(** A logging loop body run over a list, stopping at the first exception. *)
Fixpoint run_each {A B} (f : A -> Run B) (l : list A) : Run (list B) :=
  match l with
  | [] => mret []
  | x :: l' => y ← f x; ys ← run_each f l'; mret (y :: ys)
  end.

(** Python's truth value of a trace label. *)
Definition truthy (label : option string) : bool :=
  match label with
  | Some s => negb (bool_decide (s = ""))
  | None => false
  end.

(** [str(label)] *)
Definition label_str (label : option string) : string :=
  default "None" label.

End Log.
Export Log.

(** ** Nest trees, probabilities and choices ([logit]) *)

Module Logit.

(** A NestSpec: a tree whose internal nodes carry a name, a scaling
    coefficient and their children, and whose leaves are alternative names. *)
#[warnings="-register-all"]
Inductive nest_spec :=
| Alternative (name : string)
| NestNode (name : string) (coefficient : fval) (alternatives : list nest_spec).

Definition spec_name (t : nest_spec) : string :=
  match t with
  | Alternative n => n
  | NestNode n _ _ => n
  end.

(** What the traversal hands to the loops of simulate.py for one node. *)
Record Nest := mkNest {
  name : string;
  is_leaf : bool;
  coefficient : fval;
  product_of_coefficients : fval;
  alternatives : list string;
  ancestors : list string
}.

(** Modelled from the spec: the traversal of [logit.each_nest] is not part
    of the sources at hand.  The spec gives a leaf "the product of ancestor
    scaling coefficients from leaf to root (excluding root)", lists for a
    node its "child names", and composes probabilities along "every ancestor
    level"; simulate.py skips the first entry of [ancestors] as the root, so
    [ancestors] is the path of names from the root down to the node itself.
    [at_root] tells the root, whose coefficient stays out of the product. *)
Fixpoint _each_nest (post_order at_root : bool) (parent_product : fval)
    (parent_ancestors : list string) (t : nest_spec) : list Nest :=
  match t with
  | Alternative n =>
      [mkNest n true fzero parent_product [] (parent_ancestors ++ [n])]
  | NestNode n c alts =>
      let product := if at_root then parent_product else fmul parent_product c in
      let nest :=
        mkNest n false c product (map spec_name alts) (parent_ancestors ++ [n]) in
      let below :=
        flat_map (_each_nest post_order false product (parent_ancestors ++ [n]))
          alts in
      if post_order then below ++ [nest] else nest :: below
  end.

Inductive nest_type := leaf | node.

Definition type_of (nest : Nest) : nest_type :=
  if is_leaf nest then leaf else node.

#[export] Instance nest_type_eq_dec : EqDecision nest_type.
Proof. solve_decision. Defined.

(** Modelled from the spec: [logit.each_nest(nest_spec, type, post_order)],
    an "ordered traversal (post-order for bottom-up aggregation,
    pre-order/flat for top-down probability composition)", restricted to the
    nodes of one type when a type is given. *)
Definition each_nest (nest_spec : nest_spec) (type : option nest_type)
    (post_order : bool) : list Nest :=
  List.filter (fun nest => match type with
                           | None => true
                           | Some ty => bool_decide (type_of nest = ty)
                           end)
    (_each_nest post_order true fone [] nest_spec).

(** Modelled from the spec: [logit.count_nests], the "nest-tree node count"
    that enters the per-row cost estimate. *)
Definition count_nests (nest_spec : nest_spec) : nat :=
  length (each_nest nest_spec None false).

Section WithWorld.
Context `{World}.

(** Modelled from the spec: [logit.utils_to_probs] applies the row function
    of the world to every row and keeps the index and the columns; an
    exception on one row aborts the call. *)
Definition utils_to_probs (utils : DataFrame) (exponentiated allow_zero_probs : bool)
  : Exc DataFrame :=
  rs ← for_each (fun kr => ps ← utils_to_probs_row exponentiated allow_zero_probs kr.2;
                           Ret (kr.1, ps)) (rows utils);
  Ret (mkFrame (columns utils) rs).

(** The first alternative, in column order, whose cumulative probability
    exceeds the draw. *)
Fixpoint first_exceeding (r acc : fval) (probs : list fval) (pos : nat)
  : option nat :=
  match probs with
  | [] => None
  | p :: ps =>
      let acc' := fadd acc p in
      if fgtb acc' r then Some pos else first_exceeding r acc' ps (S pos)
  end.

(** Modelled from the spec: [logit.make_choices] "draws r from the entity's
    stream, accumulates probabilities across alternatives in a fixed,
    deterministic column order, and selects the first alternative whose
    cumulative probability exceeds r"; a row in which no alternative does is
    fatal.  It returns the chosen positions and the draws, both indexed like
    the probabilities. *)
Definition make_choices (probs : DataFrame) : Exc (Series nat * Series fval) :=
  choices ← for_each (fun kr =>
                        match first_exceeding (random_for_key kr.1) fzero kr.2 0 with
                        | Some pos => Ret (kr.1, pos)
                        | None => Raise (RuntimeError "probabilities do not add up to the draw")
                        end) (rows probs);
  Ret (choices, map (fun kr => (kr.1, random_for_key kr.1)) (rows probs)).

(** Modelled from the spec: [logit.report_bad_choices] flags the rows of a
    boolean map as "a non-fatal diagnostic": it writes one record for the
    call, naming the flagged rows, and returns. *)
Definition report_bad_choices (bad_row_map : list bool) (df : DataFrame)
    (trace_label : option string) (tag msg : string) : Run unit :=
  tell (BadChoices trace_label tag msg
          (map fst (List.filter snd (zip (index df) bad_row_map)))).

End WithWorld.

End Logit.
Export Logit.

(** ** Chunking ([chunk]) *)

Module Chunk.

(** Modelled from the spec: [chunk.chunked_choosers] "partitions entities
    into consecutive chunks of that row-count (final chunk may be smaller)";
    it yields the chunk number from one, the number of chunks and the chunk. *)
Definition chunked_choosers (choosers : Choosers) (rows_per_chunk : nat)
  : list (nat * nat * Choosers) :=
  let num_choosers := len choosers in
  let num_chunks :=
    num_choosers / rows_per_chunk
    + (if decide (num_choosers mod rows_per_chunk = 0) then 0 else 1) in
  map (fun i => (S i, num_chunks,
                 iloc choosers (i * rows_per_chunk) (i * rows_per_chunk + rows_per_chunk)))
    (seq 0 num_chunks).

End Chunk.
Export Chunk.

(** ** simulate.py *)

Module Simulate.

Section WithWorld.
Context `{World}.

(** *** eval_variables *)

(** [to_series]: a scalar result is repeated for every row. *)
Definition to_series (df : Choosers) (x : pyval) : list scalar :=
  match x with
  | Scalar v => replicate (len df) v
  | Values s => s
  end.

(** [locals_d = locals_d.copy() if locals_d is not None else {}] followed by
    [locals_d.update(locals())]: the function's own variables [exprs], [df],
    [locals_d] and [target_type] are bound over the caller's entries. *)
Definition bind_locals (exprs : list string) (df : Choosers)
    (locals_d : option dict) : dict :=
  <["exprs" := PyExprs exprs]>
    (<["df" := PyFrame df]>
       (<["locals_d" := PyThisDict]>
          (<["target_type" := PyDtype Float64]> (default ∅ locals_d)))).

(** The body of the [try]: an expression that starts with [@] goes to
    Python's [eval] without its first character, any other to [df.eval]. *)
Definition eval_expr (expr : string) (df : Choosers) (locals_d : dict)
  : Exc (list scalar) * dict :=
  match expr with
  | String "@"%char source =>
      let (r, locals_d') := py_eval source locals_d in
      (to_series df <$> r, locals_d')
  | _ => (df_eval expr df, locals_d)
  end.

(** The loop over [exprs]: a failure is logged with the expression and
    re-raised. *)
Fixpoint eval_loop (df : Choosers) (locals_d : dict) (exprs : list string)
  : Run (list (string * list scalar)) :=
  match exprs with
  | [] => mret []
  | expr :: rest =>
      let (r, locals_d') := eval_expr expr df locals_d in
      match r with
      | Raise err =>
          _ ← tell (Exception ("Variable evaluation failed for: " +:+ expr));
          raise err
      | Ret expr_values =>
          value_list ← eval_loop df locals_d' rest;
          mret ((expr, expr_values) :: value_list)
      end
  end.

(** [eval_variables(exprs, df, locals_d)], with [target_type] left at its
    default [np.float64] as every caller in simulate.py leaves it.
    [DataFrame.from_items] cannot unpack an empty list of items. *)
Definition eval_variables (exprs : list string) (df : Choosers)
    (locals_d : option dict) : Run DataFrame :=
  let locals_d := bind_locals exprs df locals_d in
  value_list ← eval_loop df locals_d exprs;
  values ← lift (match value_list with
                 | [] => Raise (ValueError "need more than 0 values to unpack")
                 | _ => Ret (from_items (index df) value_list)
                 end);
  mret (astype_float64 values).

(** *** compute_utilities *)

Definition compute_utilities (expression_values : DataFrame) (spec : Spec)
  : Exc DataFrame :=
  let spec := astype_float64 spec in
  dot expression_values spec.

(** *** add_skims

    The skim wrappers are pointed at the chooser table; expressions reach
    them through the environment of [py_eval], which binds the same table
    to [df]. *)
Definition add_skims (df : Choosers) (skims : list nat) : unit := tt.

(** *** compute_nested_exp_utilities *)

(** The body of the loop over the nests, children before parents. *)
Definition nested_exp_utilities_step (raw_utilities nested_utilities : DataFrame)
    (nest : Nest) : Exc DataFrame :=
  let name := name nest in
  nested_utilities ←
    (if is_leaf nest then
       raw ← getitem raw_utilities name;
       Ret (setitem nested_utilities name
              (map (fun u => fdiv u (product_of_coefficients nest)) raw))
     else
       alts ← getitems nested_utilities (alternatives nest);
       Ret (setitem nested_utilities name
              (map (fun s => fmul (coefficient nest) (log s)) (sum_axis1 alts))));
  values ← getitem nested_utilities name;
  Ret (setitem nested_utilities name (map exp values)).

Definition compute_nested_exp_utilities (raw_utilities : DataFrame)
    (nest_spec : nest_spec) : Exc DataFrame :=
  for_fold (nested_exp_utilities_step raw_utilities)
    (new_frame (index raw_utilities))
    (each_nest nest_spec None true).

(** *** compute_nested_probabilities *)

(** The body of the loop over the nodes that have children. *)
Definition nested_probabilities_step (nested_exp_utilities nested_probabilities : DataFrame)
    (nest : Nest) : Exc DataFrame :=
  alts ← getitems nested_exp_utilities (alternatives nest);
  probs ← utils_to_probs alts true true;
  Ret (concat_axis1 nested_probabilities probs).

Definition compute_nested_probabilities (nested_exp_utilities : DataFrame)
    (nest_spec : nest_spec) : Exc DataFrame :=
  for_fold (nested_probabilities_step nested_exp_utilities)
    (new_frame (index nested_exp_utilities))
    (each_nest nest_spec (Some node) false).

(** *** compute_base_probabilities *)

(** The body of the loop over the leaves; the first ancestor is the root,
    which has no column of its own. *)
Definition base_probabilities_step (nested_probabilities base_probabilities : DataFrame)
    (nest : Nest) : Exc DataFrame :=
  let ancestors := drop 1 (ancestors nest) in
  local ← getitems nested_probabilities ancestors;
  Ret (setitem base_probabilities (name nest) (prod_axis1 local)).

Definition compute_base_probabilities (nested_probabilities : DataFrame)
    (nests : nest_spec) : Exc DataFrame :=
  for_fold (base_probabilities_step nested_probabilities)
    (new_frame (index nested_probabilities))
    (each_nest nests (Some leaf) false).

(** *** eval_mnl *)

(** The local variables of [eval_mnl] when it returns. *)
Record mnl_locals := mkMnl {
  mnl_expression_values : DataFrame;
  mnl_utilities : DataFrame;
  mnl_probs : DataFrame;
  mnl_choices : Series nat;
  mnl_rands : Series fval
}.

(** The body of [eval_mnl] down to its [return] statement. *)
Definition eval_mnl_locals (choosers : Choosers) (spec : Spec)
    (locals_d : option dict) (trace_label : option string) : Run mnl_locals :=
  let trace_label := extend_trace_label trace_label "mnl" in
  let have_trace_targets := truthy trace_label && has_trace_targets choosers in
  expression_values ← eval_variables (index spec) choosers locals_d;
  utilities ← lift (compute_utilities expression_values spec);
  probs ← lift (utils_to_probs utilities false false);
  cr ← lift (make_choices probs);
  let choices := cr.1 in
  let rands := cr.2 in
  _ ← (if have_trace_targets then
         let label := label_str trace_label in
         _ ← tell (TraceDf (label +:+ ".choosers") (TChoosers choosers));
         _ ← tell (TraceDf (label +:+ ".utilities") (TFrame utilities));
         _ ← tell (TraceDf (label +:+ ".probs") (TFrame probs));
         _ ← tell (TraceDf (label +:+ ".choices") (TChoices choices));
         _ ← tell (TraceDf (label +:+ ".rands") (TValues rands));
         tell (TraceDf (label +:+ ".expression_values") (TFrame expression_values))
       else mret tt);
  mret (mkMnl expression_values utilities probs choices rands).

(** [eval_mnl]: [return choices]. *)
Definition eval_mnl (choosers : Choosers) (spec : Spec)
    (locals_d : option dict) (trace_label : option string) : Run (Series nat) :=
  locals ← eval_mnl_locals choosers spec locals_d trace_label;
  mret (mnl_choices locals).

(** *** eval_nl *)

Definition BAD_PROB_THRESHOLD : fval := Fin (Q2Qc 0.001).

(** The rows flagged by the check of [eval_nl]: those whose probabilities
    sum to a value further than the threshold from one. *)
Definition no_choices_of (base_probabilities : DataFrame) : list bool :=
  map (fun s => fgtb (fabs (fsub s fone)) (fmul BAD_PROB_THRESHOLD fone))
    (sum_axis1 base_probabilities).

(** The local variables of [eval_nl] when it returns. *)
Record nl_locals := mkNl {
  nl_expression_values : DataFrame;
  nl_raw_utilities : DataFrame;
  nl_nested_exp_utilities : DataFrame;
  nl_nested_probabilities : DataFrame;
  nl_base_probabilities : DataFrame;
  nl_no_choices : list bool;
  nl_choices : Series nat;
  nl_rands : Series fval
}.

(** The first half of [eval_nl]: from the choosers to the flattened leaf
    probabilities. *)
Definition eval_nl_probabilities (choosers : Choosers) (spec : Spec)
    (nest_spec : nest_spec) (locals_d : option dict)
  : Run (DataFrame * DataFrame * DataFrame * DataFrame * DataFrame) :=
  expression_values ← eval_variables (index spec) choosers locals_d;
  raw_utilities ← lift (compute_utilities expression_values spec);
  nested_exp_utilities ← lift (compute_nested_exp_utilities raw_utilities nest_spec);
  nested_probabilities ←
    lift (compute_nested_probabilities nested_exp_utilities nest_spec);
  base_probabilities ←
    lift (compute_base_probabilities nested_probabilities nest_spec);
  mret (expression_values, raw_utilities, nested_exp_utilities,
        nested_probabilities, base_probabilities).

(** The second half of [eval_nl]: the check of the probabilities and the
    choices. *)
Definition eval_nl_choose (trace_label : option string)
    (base_probabilities : DataFrame) : Run (list bool * Series nat * Series fval) :=
  let no_choices := no_choices_of base_probabilities in
  _ ← (if existsb id no_choices then
         report_bad_choices no_choices base_probabilities
           (extend_trace_label trace_label "eval_nl")
           "bad_probs" "base_probabilities all zero"
       else mret tt);
  cr ← lift (make_choices base_probabilities);
  mret (no_choices, cr.1, cr.2).

(** The body of [eval_nl] down to its [return] statement. *)
Definition eval_nl_locals (choosers : Choosers) (spec : Spec)
    (nest_spec : nest_spec) (locals_d : option dict)
    (trace_label : option string) : Run nl_locals :=
  let trace_label := extend_trace_label trace_label "nl" in
  let have_trace_targets := truthy trace_label && has_trace_targets choosers in
  frames ← eval_nl_probabilities choosers spec nest_spec locals_d;
  let '(expression_values, raw_utilities, nested_exp_utilities,
        nested_probabilities, base_probabilities) := frames in
  chosen ← eval_nl_choose trace_label base_probabilities;
  let '(no_choices, choices, rands) := chosen in
  _ ← (if have_trace_targets then
         let label := label_str trace_label in
         _ ← tell (TraceDf (label +:+ ".choosers") (TChoosers choosers));
         _ ← tell (TraceDf (label +:+ ".raw_utilities") (TFrame raw_utilities));
         _ ← tell (TraceDf (label +:+ ".nested_exp_utilities")
                     (TFrame nested_exp_utilities));
         _ ← tell (TraceDf (label +:+ ".nested_probabilities")
                     (TFrame nested_probabilities));
         _ ← tell (TraceDf (label +:+ ".base_probabilities")
                     (TFrame base_probabilities));
         _ ← tell (TraceDf (label +:+ ".choices") (TChoices choices));
         _ ← tell (TraceDf (label +:+ ".rands") (TValues rands));
         tell (TraceDf (label +:+ ".expression_values") (TFrame expression_values))
       else mret tt);
  mret (mkNl expression_values raw_utilities nested_exp_utilities
          nested_probabilities base_probabilities no_choices choices rands).

(** [eval_nl]: [return choices]. *)
Definition eval_nl (choosers : Choosers) (spec : Spec) (nest_spec : nest_spec)
    (locals_d : option dict) (trace_label : option string) : Run (Series nat) :=
  locals ← eval_nl_locals choosers spec nest_spec locals_d trace_label;
  mret (nl_choices locals).

(** *** _simple_simulate *)

Definition _simple_simulate (choosers : Choosers) (spec : Spec)
    (nest_spec : option nest_spec) (skims : list nat) (locals_d : option dict)
    (trace_label : option string) : Run (Series nat) :=
  let _ := if decide (skims = []) then tt else add_skims choosers skims in
  match nest_spec with
  | None => eval_mnl choosers spec locals_d trace_label
  | Some nest_spec => eval_nl choosers spec nest_spec locals_d trace_label
  end.

(** *** simple_simulate_rpc *)

(** [spec.shape[0]] and [spec.shape[1]] *)
Definition shape0 (spec : Spec) : nat := len spec.
Definition shape1 (spec : Spec) : nat := length (columns spec).

Definition simple_simulate_rpc (chunk_size : nat) (choosers : Choosers)
    (spec : Spec) (nest_spec : option nest_spec) : nat :=
  let num_choosers := len choosers in
  if decide (chunk_size = 0) then num_choosers
  else
    let chooser_row_size := length (columns choosers) in
    let extra_columns :=
      match nest_spec with
      | None => shape0 spec + 2 * shape1 spec
      | Some nest_spec =>
          let nest_count := count_nests nest_spec in
          shape0 spec + 2 * shape1 spec + 2 * nest_count - 1
      end in
    let row_size := chooser_row_size + extra_columns in
    rows_per_chunk chunk_size row_size num_choosers.

(** *** simple_simulate *)

(** The loop over the chunks, shared by [simple_simulate] and
    [simple_simulate_logsums]: each chunk is announced and evaluated under
    its own trace label, and the results are collected in [result_list]. *)
Definition chunk_loop {A} (trace_label : option string)
    (simulate : Choosers -> option string -> Run (Series A))
    (choosers : Choosers) (rows_per_chunk : nat) : Run (list (Series A)) :=
  run_each (fun c =>
      let '(i, num_chunks, chooser_chunk) := c in
      _ ← tell (Info ("Running chunk " +:+ pretty i +:+ " of " +:+ pretty num_chunks
                        +:+ " size " +:+ pretty (len chooser_chunk)));
      let chunk_trace_label :=
        if decide (1 < num_chunks)
        then extend_trace_label trace_label ("chunk_" +:+ pretty i)
        else trace_label in
      simulate chooser_chunk chunk_trace_label)
    (chunked_choosers choosers rows_per_chunk).

(** What follows the loop: the results are concatenated when there are
    several; with one chunk the loop variable is the result, with none it
    was never bound.  The closing assertion takes the length of the
    element-wise comparison of the index with a number, that is, the length
    of the result. *)
Definition collect {A} (var : string) (result_list : list (Series A))
  : Exc (Series A) :=
  choices ← match result_list with
            | [] => Raise (UnboundLocalError var)
            | [choices] => Ret choices
            | _ => Ret (concat result_list)
            end;
  _ ← assert (bool_decide (0 < length choices));
  Ret choices.

Definition simple_simulate (choosers : Choosers) (spec : Spec)
    (nest_spec : option nest_spec) (skims : list nat) (locals_d : option dict)
    (chunk_size : nat) (trace_label : option string) : Run (Series nat) :=
  let trace_label := extend_trace_label trace_label "simple_simulate" in
  _ ← lift (assert (bool_decide (0 < len choosers)));
  let rows_per_chunk := simple_simulate_rpc chunk_size choosers spec nest_spec in
  _ ← tell (Info ("simple_simulate rows_per_chunk " +:+ pretty rows_per_chunk
                    +:+ " num_choosers " +:+ pretty (len choosers)));
  result_list ←
    chunk_loop trace_label
      (fun chooser_chunk chunk_trace_label =>
         _simple_simulate chooser_chunk spec nest_spec skims locals_d
           chunk_trace_label)
      choosers rows_per_chunk;
  lift (collect "choices" result_list).

(** *** The logsum variants *)

Definition eval_mnl_logsums (choosers : Choosers) (spec : Spec)
    (locals_d : option dict) (trace_label : option string) : Run (Series fval) :=
  let trace_label := extend_trace_label trace_label "mnl" in
  let have_trace_targets := truthy trace_label && has_trace_targets choosers in
  expression_values ← eval_variables (index spec) choosers locals_d;
  utilities ← lift (compute_utilities expression_values spec);
  let logsums := map (fun kr => log (fsum (map exp kr.2))) (rows utilities) in
  let logsums_series := zip (index choosers) logsums in
  _ ← (if have_trace_targets then
         let label := label_str trace_label in
         let utilities := setitem utilities "logsum" logsums in
         _ ← tell (TraceDf (label +:+ ".choosers") (TChoosers choosers));
         _ ← tell (TraceDf (label +:+ ".utilities") (TFrame utilities));
         _ ← tell (TraceDf (label +:+ ".logsums") (TValues logsums_series));
         tell (TraceDf (label +:+ ".expression_values") (TFrame expression_values))
       else mret tt);
  mret logsums_series.

Definition eval_nl_logsums (choosers : Choosers) (spec : Spec)
    (nest_spec : nest_spec) (locals_d : option dict)
    (trace_label : option string) : Run (Series fval) :=
  let trace_label := extend_trace_label trace_label "nl" in
  let have_trace_targets := truthy trace_label && has_trace_targets choosers in
  expression_values ← eval_variables (index spec) choosers locals_d;
  raw_utilities ← lift (compute_utilities expression_values spec);
  nested_exp_utilities ← lift (compute_nested_exp_utilities raw_utilities nest_spec);
  root ← lift (match getitem nested_exp_utilities "root" with
               | Raise _ => Raise (AttributeError "root")
               | Ret values => Ret values
               end);
  let logsums := map log root in
  let logsums_series := zip (index choosers) logsums in
  _ ← (if have_trace_targets then
         let label := label_str trace_label in
         let nested_exp_utilities := setitem nested_exp_utilities "logsum" logsums in
         _ ← tell (TraceDf (label +:+ ".choosers") (TChoosers choosers));
         _ ← tell (TraceDf (label +:+ ".raw_utilities") (TFrame raw_utilities));
         _ ← tell (TraceDf (label +:+ ".nested_exp_utilities")
                     (TFrame nested_exp_utilities));
         tell (TraceDf (label +:+ ".logsums") (TValues logsums_series))
       else mret tt);
  mret logsums_series.

Definition _simple_simulate_logsums (choosers : Choosers) (spec : Spec)
    (nest_spec : option nest_spec) (skims : list nat) (locals_d : option dict)
    (trace_label : option string) : Run (Series fval) :=
  let _ := if decide (skims = []) then tt else add_skims choosers skims in
  match nest_spec with
  | None => eval_mnl_logsums choosers spec locals_d trace_label
  | Some nest_spec => eval_nl_logsums choosers spec nest_spec locals_d trace_label
  end.

Definition simple_simulate_logsums_rpc (chunk_size : nat) (choosers : Choosers)
    (spec : Spec) (nest_spec : option nest_spec) : Run nat :=
  let num_choosers := len choosers in
  if decide (chunk_size = 0) then mret num_choosers
  else
    let chooser_row_size := length (columns choosers) in
    extra_columns ←
      match nest_spec with
      | None =>
          _ ← tell (Warn ("simple_simulate_logsums_rpc rows_per_chunk not validated for mnl"
                            +:+ " so chunk sizing might be a bit off"));
          mret (shape0 spec + shape1 spec)
      | Some nest_spec =>
          mret (shape0 spec + shape1 spec + count_nests nest_spec)
      end;
    let row_size := chooser_row_size + extra_columns in
    mret (rows_per_chunk chunk_size row_size num_choosers).

Definition simple_simulate_logsums (choosers : Choosers) (spec : Spec)
    (nest_spec : option nest_spec) (skims : list nat) (locals_d : option dict)
    (chunk_size : nat) (trace_label : option string) : Run (Series fval) :=
  let trace_label := extend_trace_label trace_label "simple_simulate_logsums" in
  _ ← lift (assert (bool_decide (0 < len choosers)));
  rows_per_chunk ← simple_simulate_logsums_rpc chunk_size choosers spec nest_spec;
  _ ← tell (Info (label_str trace_label +:+ " chunk_size " +:+ pretty chunk_size
                    +:+ " num_choosers " +:+ pretty (len choosers)
                    +:+ ", rows_per_chunk " +:+ pretty rows_per_chunk));
  result_list ←
    chunk_loop trace_label
      (fun chooser_chunk chunk_trace_label =>
         _simple_simulate_logsums chooser_chunk spec nest_spec skims locals_d
           chunk_trace_label)
      choosers rows_per_chunk;
  lift (collect "logsums" result_list).

End WithWorld.

End Simulate.
Export Simulate.

(** ** mode_choice.py *)

Module ModeChoice.

Section WithWorld.
Context `{World}.

(** The three skim wrappers are objects of the environment; a wrapper that
    is [None] is bound all the same but not added to [skims]. *)
Definition skim_object (wrapper : option nat) : pyobj :=
  match wrapper with
  | Some id => PyObject id
  | None => PyNone
  end.

(** [choices.map(dict(zip(range(len(alts)), alts)))]: a position becomes the
    alternative at that position of the spec's columns, a position outside
    them a missing value. *)
Definition map_to_alts (alts : list string) (choices : Series nat)
  : Series (option string) :=
  map (fun kc => (kc.1, alts !! kc.2)) choices.

Definition _mode_choice_simulate (records : Choosers)
    (odt_skim_stack_wrapper dot_skim_stack_wrapper od_skim_stack_wrapper : option nat)
    (spec : Spec) (constants : option dict) (nest_spec : option nest_spec)
    (chunk_size : nat) (trace_label : option string)
  : Run (Series (option string)) :=
  let locals_d : dict :=
    <["odt_skims" := skim_object odt_skim_stack_wrapper]>
      (<["dot_skims" := skim_object dot_skim_stack_wrapper]>
         (<["od_skims" := skim_object od_skim_stack_wrapper]> ∅)) in
  let locals_d := match constants with
                  | Some constants => constants ∪ locals_d
                  | None => locals_d
                  end in
  let skims := omap id [odt_skim_stack_wrapper; dot_skim_stack_wrapper;
                        od_skim_stack_wrapper] in
  choices ← simple_simulate records spec nest_spec skims (Some locals_d)
              chunk_size trace_label;
  let alts := columns spec in
  mret (map_to_alts alts choices).

End WithWorld.

End ModeChoice.
Export ModeChoice.

(** ** Dictionaries as shared objects

    The value-level [eval_variables] above receives the caller's dictionary
    by value.  Here dictionaries are objects of a store, addressed by
    reference, so that a call can be asked what it did to the object it was
    handed. *)

Module Store.

Abbreviation ref := nat (only parsing).
Abbreviation store := (gmap nat dict).

Section WithWorld.
Context `{World}.

(** [locals_d.copy() if locals_d is not None else {}]: a new object. *)
Definition copy_or_new (locals_d : option ref) (h : store) : ref * store :=
  let own := fresh (dom h) in
  (own, <[own := default ∅ (d ← locals_d; h !! d)]> h).

(** [locals_d.update(locals())] on the object behind a reference. *)
Definition update_locals (own : ref) (exprs : list string) (df : Choosers)
    (h : store) : store :=
  <[own := bind_locals exprs df (h !! own)]> h.

(** The loop of [eval_variables], evaluating in the object behind [own];
    whatever an evaluation does to its environment is written back. *)
Fixpoint eval_loop_in (df : Choosers) (own : ref) (exprs : list string)
    (h : store) : Run (list (string * list scalar)) * store :=
  match exprs with
  | [] => (mret [], h)
  | expr :: rest =>
      let (r, locals_d') := eval_expr expr df (default ∅ (h !! own)) in
      let h := <[own := locals_d']> h in
      match r with
      | Raise err =>
          (_ ← tell (Exception ("Variable evaluation failed for: " +:+ expr));
           raise err, h)
      | Ret expr_values =>
          let (value_list, h) := eval_loop_in df own rest h in
          (value_list ← value_list; mret ((expr, expr_values) :: value_list), h)
      end
  end.

(** [eval_variables] on a store: the caller passes a reference or [None]. *)
Definition eval_variables_in (exprs : list string) (df : Choosers)
    (locals_d : option ref) (h : store) : Run DataFrame * store :=
  let (own, h) := copy_or_new locals_d h in
  let h := update_locals own exprs df h in
  let (value_list, h) := eval_loop_in df own exprs h in
  (value_list ← value_list;
   values ← lift (match value_list with
                  | [] => Raise (ValueError "need more than 0 values to unpack")
                  | _ => Ret (from_items (index df) value_list)
                  end);
   mret (astype_float64 values), h).

End WithWorld.

End Store.
Export Store.

(** ** A concrete world, to run the engine on examples *)

Module Example.

(** A rational stand-in for libm's exponential: the Taylor polynomial of
    degree six.  It is exact at zero and lies strictly between zero and one
    on the negative arguments the examples use. *)
Definition exp_taylor (q : Qc) : fval :=
  Fin (1 + q + q^2 / Q2Qc 2 + q^3 / Q2Qc 6 + q^4 / Q2Qc 24 + q^5 / Q2Qc 120
       + q^6 / Q2Qc 720)%Qc.

(** A rational stand-in for libm's logarithm: three terms of the series in
    [(q - 1) / (q + 1)]. *)
Definition log_series (q : Qc) : fval :=
  let t := ((q - 1) / (q + 1))%Qc in
  Fin (Q2Qc 2 * (t + t^3 / Q2Qc 3 + t^5 / Q2Qc 5))%Qc.

(** A fragment of Python's expressions, enough for the examples: an integer
    literal, the number of rows [len(df)], a column [df.name], or a name
    bound to a number in the environment.  Evaluation leaves the environment
    as it found it. *)
Definition py_fragment (source : string) (locals_d : dict) : Exc pyval * dict :=
  (match source with
   | "1" => Ret (Scalar (SInt 1))
   | "len(df)" =>
       match locals_d !! "df" with
       | Some (PyFrame df) => Ret (Scalar (SInt (Z.of_nat (len df))))
       | _ => Raise (OtherError "NameError")
       end
   | String "d" (String "f" (String "." col)) =>
       match locals_d !! "df" with
       | Some (PyFrame df) =>
           match getitem df col with
           | Ret values => Ret (Values values)
           | Raise _ => Raise (AttributeError col)
           end
       | _ => Raise (OtherError "NameError")
       end
   | _ =>
       match locals_d !! source with
       | Some (PyScalar v) => Ret (Scalar v)
       | _ => Raise (OtherError "NameError")
       end
   end, locals_d).

(** A fragment of [df.eval]: a column by its name. *)
Definition df_fragment (expr : string) (df : Choosers) : Exc (list scalar) :=
  match getitem df expr with
  | Ret values => Ret values
  | Raise _ => Raise (OtherError "UndefinedVariableError")
  end.

(** Modelled from the spec: the row function of [logit.utils_to_probs],
    which is not part of the sources at hand.  Flat mode computes
    "p_i = exp(u_i) / sum_j exp(u_j) per row, with a numerically-stable
    shift (subtract the row max utility before exponentiating)"; within a
    nest the utilities come exponentiated and a zero sum gives every child
    the probability zero.  A zero sum is an error when zero probabilities
    are not allowed. *)
Definition softmax_row (exponentiated allow_zero_probs : bool)
    (utils : list fval) : Exc (list fval) :=
  let top := foldr (fun u m => if fgtb u m then u else m) NegInf utils in
  let exps :=
    if exponentiated then utils
    else map (fun u => fexp exp_taylor (fsub u top)) utils in
  let total := fsum exps in
  if decide (total = fzero) then
    if allow_zero_probs then Ret (map (fun _ => fzero) exps)
    else Raise (RuntimeError "all probabilities are zero")
  else Ret (map (fun e => fdiv e total) exps).

(** A rows-per-chunk rule: as many rows as the budget of cells pays for,
    at least one and at most all. *)
Definition budget_rows (chunk_size row_size num_choosers : nat) : nat :=
  1 `max` ((chunk_size / row_size) `min` num_choosers).

(** The example world; [draw] is the random stream. *)
Definition world (draw : key -> fval) : World := {|
  exp_fin := exp_taylor;
  log_pos := log_series;
  py_eval := py_fragment;
  df_eval := df_fragment;
  utils_to_probs_row := softmax_row;
  random_for_key := draw;
  rows_per_chunk := budget_rows;
  has_trace_targets := fun _ => false;
  extend_trace_label := fun label extension =>
    (fun s => s +:+ "." +:+ extension) <$> label
|}.

End Example.


(** ** Vocabulary of the statements *)

Module Vocabulary.

(** The frame whose rows are computed, one by one, from the rows [rs] of a
    base table: the row of [kr] keeps its index label and holds
    [cells kr]. *)
Definition frame_of {I X V} (rs : list (I * X)) (names : list string)
    (cells : I * X -> list V) : Frame I V :=
  mkFrame names (map (fun kr => (kr.1, cells kr)) rs).

(** The positions of a list of labels in a header, as [df[names]] finds
    them. *)
Definition positions (names labels : list string) : Exc (list nat) :=
  for_each (fun n => match position n labels with
                     | None => Raise (KeyError n)
                     | Some p => Ret p
                     end) names.

(** Whether a call returned, and what it returned (or a default). *)
Definition is_ret {A} (m : Exc A) : bool :=
  match m with
  | Ret _ => true
  | Raise _ => false
  end.

Definition ret_or {A} (d : A) (m : Exc A) : A :=
  match m with
  | Ret a => a
  | Raise _ => d
  end.

(** The shape of a table computed row by row from base rows: it exists when
    every base row passes [ok], and then holds [cells] of each row under the
    header [names]. *)
Definition row_form (X : Type) : Type :=
  option (list string * (nat * X -> bool) * (nat * X -> list fval)).

Definition denote {X} (form : row_form X) (rs : list (nat * X))
  : option DataFrame :=
  match form with
  | None => None
  | Some (names, ok, cells) =>
      if forallb ok rs then Some (frame_of rs names cells) else None
  end.

(** A computation on base rows whose returned table is computed row by row,
    with a header that does not depend on the rows. *)
Definition row_formed {X} (m : list (nat * X) -> Exc DataFrame) : Prop :=
  exists form : row_form X, forall rs, returned (m rs) = denote form rs.

(** The same for a Series of choices. *)
Definition denote_choices {X} (form : option ((nat * X -> bool) * (nat * X -> nat)))
    (rs : list (nat * X)) : option (Series nat) :=
  match form with
  | None => None
  | Some (ok, pos) =>
      if forallb ok rs then Some (map (fun kr => (kr.1, pos kr)) rs) else None
  end.

(** All the names of a nest tree, a node before its children. *)
Fixpoint tree_names (t : nest_spec) : list string :=
  match t with
  | Alternative n => [n]
  | NestNode n _ alts => n :: flat_map tree_names alts
  end.

(** The names of the leaves of a nest tree, left to right. *)
Fixpoint leaf_names (t : nest_spec) : list string :=
  match t with
  | Alternative n => [n]
  | NestNode _ _ alts => flat_map leaf_names alts
  end.

(** [leaf_under t l cs]: [l] is a leaf of [t], and [cs] are the coefficients
    of the nests above it, from the top of [t] down to its parent. *)
Inductive leaf_under : nest_spec -> string -> list fval -> Prop :=
| leaf_here n : leaf_under (Alternative n) n []
| leaf_below n c alts a l cs :
    In a alts -> leaf_under a l cs -> leaf_under (NestNode n c alts) l (c :: cs).

(** [node_in t n c children]: [t] has a nest named [n], with coefficient
    [c], whose children are named [children], in order. *)
Inductive node_in : nest_spec -> string -> fval -> list string -> Prop :=
| node_here n c alts : node_in (NestNode n c alts) n c (map spec_name alts)
| node_below n c alts a m c' children :
    In a alts -> node_in a m c' children ->
    node_in (NestNode n c alts) m c' children.

(** [leaf_path t l names]: [l] is a leaf of [t], and [names] are the names
    on the way to it, from the top of [t] down to [l] itself. *)
Inductive leaf_path : nest_spec -> string -> list string -> Prop :=
| path_here n : leaf_path (Alternative n) n [n]
| path_below n c alts a l names :
    In a alts -> leaf_path a l names ->
    leaf_path (NestNode n c alts) l (n :: names).

(** In a list of nests, every node comes after its children, which may
    also be among the names [before]. *)
Definition children_first (before : list string) (nests : list Nest) : Prop :=
  forall l1 nest l2, nests = l1 ++ nest :: l2 -> is_leaf nest = false ->
    forall child, In child (alternatives nest) ->
      In child (before ++ map name l1).

(** The paths of names from the top of a tree to each of its leaves, left
    to right; a path ends with the leaf. *)
Fixpoint leaf_paths (t : nest_spec) : list (list string) :=
  match t with
  | Alternative n => [[n]]
  | NestNode n _ alts => map (cons n) (flat_map leaf_paths alts)
  end.

(** The exact sum of a list of rationals. *)
Definition qsum (qs : list Qc) : Qc := foldr Qcplus 0%Qc qs.

(** A row of probabilities whose sum differs from 1.0 by more than the
    threshold. *)
Definition bad_prob_row (r : list fval) : bool :=
  fgtb (fabs (fsub (nansum r) fone)) BAD_PROB_THRESHOLD.

(** The keys of the rows of a table of probabilities that are bad, in row
    order. *)
Definition bad_rows (base_probabilities : DataFrame) : list nat :=
  map fst (List.filter (fun kr => bad_prob_row kr.2) (rows base_probabilities)).

(** The record of a trace dump. *)
Definition is_trace (e : event) : Prop :=
  match e with
  | TraceDf _ _ => True
  | _ => False
  end.

(** The product of a list of coefficients, taken from the top down. *)
Definition product_of (cs : list fval) : fval := foldl fmul fone cs.

(** The coefficient a spec gives an expression for the alternative in
    column [j], as the spec table holds it. *)
Definition coefficient_of (spec : Spec) (expr : string) (j : nat)
  : option scalar :=
  r ← loc (rows spec) expr; r !! j.

(** The same coefficient as a float64; a coefficient the table lacks is a
    missing value. *)
Definition float_coefficient (spec : Spec) (expr : string) (j : nat) : fval :=
  from_option to_float NaN (coefficient_of spec expr j).

Section WithWorld.
Context `{World}.

(** The environment after the expressions of [done] were evaluated in
    order, starting from [locals_d]. *)
Definition env_after (df : Choosers) (locals_d : dict) (done : list string)
  : dict :=
  foldl (fun d e => (eval_expr e df d).2) locals_d done.

(** What one pass of the loop of [compute_nested_exp_utilities] puts in the cell of [nest], for a row whose
    raw utilities are [raw] and whose cells so far are [r]. *)
Definition exp_utility (rnames : list string) (raw : list fval)
    (names : list string) (r : list fval) (nest : Nest) : fval :=
  exp (if is_leaf nest
       then fdiv (cell_named rnames raw (name nest)) (product_of_coefficients nest)
       else fmul (coefficient nest)
              (log (nansum (map (cell_named names r) (alternatives nest))))).

(** The expressions [exprs] are evaluated row by row on the tables that
    have the header [cols]: the values of an expression are [g expr] of each
    row, the first failing row gives the exception, and the environment is
    left as it was. *)
Definition row_wise (cols : list string) (exprs : list string)
    (locals_d : option dict) (g : string -> nat * list scalar -> Exc scalar)
  : Prop :=
  forall expr, In expr exprs ->
    forall rs : list (nat * list scalar),
      eval_expr expr (mkFrame cols rs) (bind_locals exprs (mkFrame cols rs) locals_d)
      = (for_each (g expr) rs, bind_locals exprs (mkFrame cols rs) locals_d).

End WithWorld.

End Vocabulary.
Export Vocabulary.

(** * Properties *)

(** ** Outcomes and runs *)

Lemma run_eq {A} (r r' : Run A) :
  outcome r = outcome r' -> events r = events r' -> r = r'.
Proof. destruct r, r'; simpl; congruence. Qed.

Lemma bind_raise {A B} (f : A -> Run B) (e : exn) (w : list event) :
  mkRun (Raise e) w ≫= f = mkRun (Raise e) w.
Proof. reflexivity. Qed.

Lemma bind_ret {A B} (f : A -> Run B) (a : A) (w : list event) :
  mkRun (Ret a) w ≫= f = mkRun (outcome (f a)) (w ++ events (f a)).
Proof. reflexivity. Qed.

Lemma outcome_bind {A B} (m : Run A) (f : A -> Run B) :
  outcome (m ≫= f) = outcome m ≫= fun a => outcome (f a).
Proof. destruct m as [[e|a] w]; reflexivity. Qed.

Lemma outcome_bind_lift {A B} (m : Exc A) (f : A -> Run B) :
  outcome (lift m ≫= f) = m ≫= fun a => outcome (f a).
Proof. destruct m; reflexivity. Qed.

Lemma returned_bind {A B} (m : Exc A) (f : A -> Exc B) :
  returned (m ≫= f) = returned m ≫= fun a => returned (f a).
Proof. destruct m; reflexivity. Qed.

Lemma returned_Some {A} (m : Exc A) (a : A) :
  returned m = Some a <-> m = Ret a.
Proof. destruct m; simpl; split; congruence. Qed.

(** ** C10: an empty population is refused *)

Section EmptyPopulation.
Context `{World}.

(** C10.  [simple_simulate] and [simple_simulate_logsums] called with a
    chooser table of zero rows raise an assertion error, and nothing has been
    logged by then: neither the rows-per-chunk line that precedes the
    chunking nor any "Running chunk" line; no result, empty or otherwise, is
    returned. *)
Theorem simple_simulate_refuses_empty (choosers : Choosers) (spec : Spec)
    (nest_spec : option nest_spec) (skims : list nat) (locals_d : option dict)
    (chunk_size : nat) (trace_label : option string) :
  len choosers = 0 ->
  simple_simulate choosers spec nest_spec skims locals_d chunk_size trace_label
    = mkRun (Raise AssertionError) []
  /\ simple_simulate_logsums choosers spec nest_spec skims locals_d chunk_size
       trace_label
    = mkRun (Raise AssertionError) [].
Proof.
  intros Hlen. unfold simple_simulate, simple_simulate_logsums.
  rewrite Hlen. split; reflexivity.
Qed.

End EmptyPopulation.

Lemma simple_simulate_refuses_empty_witness :
  let W := Example.world (fun _ => fzero) in
  let choosers : Choosers := mkFrame ["income"] [] in
  let spec : Spec := mkFrame ["a"; "b"] [("income", [SInt 1; SInt 0])] in
  len choosers = 0
  /\ simple_simulate choosers spec None [] None 4 None
     = mkRun (Raise AssertionError) []
  /\ simple_simulate_logsums choosers spec None [] None 4 None
     = mkRun (Raise AssertionError) [].
Proof.
  intros W choosers spec. split; [reflexivity|].
  apply (simple_simulate_refuses_empty choosers spec None [] None 4 None).
  reflexivity.
Defined.

(** ** C7: a failing expression aborts [eval_variables] *)

Section FailingExpression.
Context `{World}.

Lemma eval_loop_failure (df : Choosers) (pre : list string) :
  forall (d : dict) (expr : string) (post : list string) (err : exn),
  (forall n e, pre !! n = Some e ->
     exists v, (eval_expr e df (env_after df d (take n pre))).1 = Ret v) ->
  (eval_expr expr df (env_after df d pre)).1 = Raise err ->
  eval_loop df d (pre ++ expr :: post)
  = mkRun (Raise err) [Exception ("Variable evaluation failed for: " +:+ expr)].
Proof.
  induction pre as [|e pre IH]; intros d expr post err Hpre Hfail; simpl in *.
  - destruct (eval_expr expr df d) as [r d'] eqn:E. simpl in Hfail. subst r.
    reflexivity.
  - destruct (Hpre 0 e eq_refl) as [v Hv]. simpl in Hv.
    destruct (eval_expr e df d) as [r d'] eqn:E. simpl in *. subst r.
    rewrite (IH d' expr post err); [reflexivity| |assumption].
    intros n e' Hn. specialize (Hpre (S n) e' Hn). simpl in Hpre.
    rewrite E in Hpre. exact Hpre.
Qed.

(** C7.  When the expressions before [expr] evaluate and [expr] raises
    [err], [eval_variables] raises that same error, having logged exactly one
    record, which names [expr]; it returns no matrix, and the expressions
    after [expr] play no part: the loop does what it does on the list cut
    after [expr]. *)
Theorem eval_variables_aborts_on_failure (exprs : list string) (df : Choosers)
    (locals_d : option dict) (pre : list string) (expr : string)
    (post : list string) (err : exn) :
  exprs = pre ++ expr :: post ->
  (forall n e, pre !! n = Some e ->
     exists v, (eval_expr e df (env_after df (bind_locals exprs df locals_d)
                                  (take n pre))).1 = Ret v) ->
  (eval_expr expr df (env_after df (bind_locals exprs df locals_d) pre)).1
    = Raise err ->
  eval_variables exprs df locals_d
    = mkRun (Raise err) [Exception ("Variable evaluation failed for: " +:+ expr)]
  /\ eval_loop df (bind_locals exprs df locals_d) exprs
     = eval_loop df (bind_locals exprs df locals_d) (pre ++ [expr]).
Proof.
  intros Hex Hpre Hfail. unfold eval_variables.
  rewrite Hex at 2 4.
  rewrite !(eval_loop_failure df pre _ expr _ err Hpre Hfail).
  split; reflexivity.
Qed.

End FailingExpression.

Lemma eval_variables_aborts_on_failure_witness :
  let W := Example.world (fun _ => fzero) in
  let df : Choosers := mkFrame ["income"; "age"] [(7, [SInt 3; SInt 40])] in
  let exprs := ["income"; "@nope"; "age"] in
  eval_variables exprs df None
    = mkRun (Raise (OtherError "NameError"))
        [Exception "Variable evaluation failed for: @nope"]
  /\ eval_loop df (bind_locals exprs df None) exprs
     = eval_loop df (bind_locals exprs df None) ["income"; "@nope"].
Proof.
  intros W df exprs.
  apply (eval_variables_aborts_on_failure exprs df None ["income"] "@nope" ["age"]
           (OtherError "NameError")).
  - reflexivity.
  - intros [|[|n]] e Hn; simpl in Hn; inversion Hn; subst.
    exists [SInt 3]. vm_compute. reflexivity.
  - vm_compute. reflexivity.
Defined.

(** ** C9: the caller's dictionary is left alone *)

Section CallerDictionary.
Context `{World}.

Lemma eval_loop_in_frame (df : Choosers) (own : nat) (exprs : list string) :
  forall h : store,
  (forall l, l <> own -> (eval_loop_in df own exprs h).2 !! l = h !! l)
  /\ (eval_loop_in df own exprs h).1 = eval_loop df (default ∅ (h !! own)) exprs.
Proof.
  induction exprs as [|e rest IH]; intros h; simpl.
  - split; [intros; reflexivity | reflexivity].
  - destruct (eval_expr e df (default ∅ (h !! own))) as [r d'] eqn:E.
    destruct r as [err|v]; simpl.
    + split; [|reflexivity]. intros l Hl. by rewrite lookup_insert_ne.
    + destruct (IH (<[own:=d']> h)) as [IH1 IH2].
      destruct (eval_loop_in df own rest (<[own:=d']> h)) as [vl h'] eqn:E'.
      simpl in *. split.
      * intros l Hl. rewrite IH1 by assumption. by rewrite lookup_insert_ne.
      * rewrite IH2, lookup_insert_eq. reflexivity.
Qed.

(** C9.  [eval_variables] called with a reference to the caller's dictionary
    leaves that dictionary, and every other object of the store, as it found
    them: its own bindings and whatever the evaluations do to their
    environment land in a copy.  The call computes what the value-level
    [eval_variables] computes from the dictionary's contents. *)
Theorem eval_variables_copies_locals (exprs : list string) (df : Choosers)
    (caller : nat) (h : store) (d : dict) :
  h !! caller = Some d ->
  (eval_variables_in exprs df (Some caller) h).2 !! caller = Some d
  /\ (forall l, is_Some (h !! l) ->
        (eval_variables_in exprs df (Some caller) h).2 !! l = h !! l)
  /\ (eval_variables_in exprs df (Some caller) h).1
     = eval_variables exprs df (Some d).
Proof.
  intros Hd. unfold eval_variables_in, copy_or_new, update_locals. simpl.
  set (own := fresh (dom h)).
  assert (Hown : h !! own = None).
  { apply not_elem_of_dom. apply is_fresh. }
  rewrite Hd. simpl. rewrite lookup_insert_eq.
  set (h2 := <[own:=bind_locals exprs df (Some d)]> (<[own:=d]> h)).
  destruct (eval_loop_in_frame df own exprs h2) as [Hframe Hval].
  destruct (eval_loop_in df own exprs h2) as [vl h'] eqn:E. simpl in *.
  assert (Hother : forall l, is_Some (h !! l) -> h' !! l = h !! l).
  { intros l [x Hx]. assert (l <> own) by congruence.
    rewrite Hframe by assumption. unfold h2.
    rewrite !lookup_insert_ne by congruence. reflexivity. }
  split; [|split].
  - rewrite Hother by eauto. exact Hd.
  - exact Hother.
  - unfold eval_variables. rewrite Hval. unfold h2.
    rewrite lookup_insert_eq. reflexivity.
Qed.

End CallerDictionary.

Lemma eval_variables_copies_locals_witness :
  let W := Example.world (fun _ => fzero) in
  let df : Choosers := mkFrame ["income"] [(7, [SInt 3]); (8, [SInt 5])] in
  let d : dict := {["rate" := PyScalar (SInt 2)]} in
  let h : store := {[4 := d]} in
  let exprs := ["income"; "@rate"] in
  h !! 4 = Some d
  /\ (eval_variables_in exprs df (Some 4) h).2 !! 4 = Some d
  /\ (forall l, is_Some (h !! l) ->
        (eval_variables_in exprs df (Some 4) h).2 !! l = h !! l)
  /\ (eval_variables_in exprs df (Some 4) h).1 = eval_variables exprs df (Some d).
Proof.
  intros W df d h exprs.
  assert (Hd : h !! 4 = Some d) by (vm_compute; reflexivity).
  split; [exact Hd|].
  exact (eval_variables_copies_locals exprs df 4 h d Hd).
Defined.

(** ** Arithmetic of the float model *)

Lemma fadd_comm (x y : fval) : fadd x y = fadd y x.
Proof. destruct x, y; simpl; try reflexivity. f_equal. ring. Qed.

Lemma fadd_assoc (x y z : fval) : fadd x (fadd y z) = fadd (fadd x y) z.
Proof. destruct x, y, z; simpl; try reflexivity. f_equal. ring. Qed.

Lemma fadd_0_r (x : fval) : fadd x fzero = x.
Proof. destruct x; simpl; try reflexivity. f_equal. ring. Qed.

Lemma fadd_0_l (x : fval) : fadd fzero x = x.
Proof. rewrite fadd_comm. apply fadd_0_r. Qed.

Lemma foldl_fadd (xs : list fval) (a : fval) :
  foldl fadd a xs = fadd a (fsum xs).
Proof.
  unfold fsum. revert a.
  induction xs as [|x xs IH]; intros a; cbn [foldl].
  - symmetry. apply fadd_0_r.
  - rewrite IH, (IH (fadd fzero x)), fadd_0_l. symmetry. apply fadd_assoc.
Qed.

Lemma fsum_cons (x : fval) (xs : list fval) :
  fsum (x :: xs) = fadd x (fsum xs).
Proof. unfold fsum at 1. cbn [foldl]. rewrite foldl_fadd, fadd_0_l. reflexivity. Qed.

(** A matrix product does not depend on the order in which the common
    labels are summed. *)
Lemma fsum_Permutation (xs ys : list fval) :
  xs ≡ₚ ys -> fsum xs = fsum ys.
Proof.
  induction 1 as [|x xs ys _ IH|x y xs|xs ys zs _ IH1 _ IH2].
  - reflexivity.
  - rewrite !fsum_cons, IH. reflexivity.
  - rewrite !fsum_cons, !fadd_assoc, (fadd_comm y x). reflexivity.
  - congruence.
Qed.

(** ** Labels and positions *)

Lemma position_Some (labels : list string) (name : string) (p : nat) :
  position name labels = Some p -> labels !! p = Some name.
Proof.
  revert p. induction labels as [|l ls IH]; intros p; simpl; [discriminate|].
  destruct (decide (l = name)) as [->|Hne].
  - intros [= <-]. reflexivity.
  - destruct (position name ls) as [q|]; simpl; [|discriminate].
    intros [= <-]. simpl. apply IH. reflexivity.
Qed.

Lemma position_None (labels : list string) (name : string) :
  position name labels = None <-> name ∉ labels.
Proof.
  induction labels as [|l ls IH]; simpl.
  - split; [intros _; apply not_elem_of_nil | reflexivity].
  - destruct (decide (l = name)) as [->|Hne].
    + split; [discriminate|]. intros Hn. exfalso. apply Hn. left.
    + rewrite not_elem_of_cons. destruct (position name ls); simpl.
      * split; [discriminate|]. intros [_ Hn]. apply IH in Hn. discriminate.
      * split; [|reflexivity]. intros _. split; [congruence|].
        apply IH. reflexivity.
Qed.

Lemma position_elem_of (labels : list string) (name : string) :
  name ∈ labels -> exists p, position name labels = Some p.
Proof.
  intros Hin. destruct (position name labels) as [p|] eqn:E; [eauto|].
  apply position_None in E. contradiction.
Qed.

Lemma position_NoDup (labels : list string) (name : string) (p : nat) :
  NoDup labels -> labels !! p = Some name -> position name labels = Some p.
Proof.
  intros Hnd Hp.
  destruct (position_elem_of labels name) as [q Hq].
  { eapply list_elem_of_lookup_2. exact Hp. }
  rewrite Hq. f_equal. apply position_Some in Hq.
  eapply NoDup_lookup; eauto.
Qed.

(** ** C4: utilities are the product of values and coefficients, by name *)

Lemma aligned_Permutation (cols idx : list string) :
  NoDup cols -> NoDup idx -> cols ≡ₚ idx -> aligned cols idx = true.
Proof.
  intros Hc Hi Hp. unfold aligned. destruct (decide (cols = idx)); [reflexivity|].
  rewrite !bool_decide_eq_true_2; try done.
  - intros x Hx. by rewrite Hp.
  - intros x Hx. by rewrite <- Hp.
Qed.

Lemma loc_astype (rs : list (string * list scalar)) (e : string) :
  loc (map (fun kr => (kr.1, map to_float kr.2)) rs) e = map to_float <$> loc rs e.
Proof.
  induction rs as [|[l r] rs IH]; simpl; [reflexivity|].
  destruct (decide (l = e)); [reflexivity | exact IH].
Qed.

Lemma cell_at_astype (spec : Spec) (e : string) (j : nat) :
  cell_at (astype_float64 spec) e j = float_coefficient spec e j.
Proof.
  unfold cell_at, float_coefficient, coefficient_of. simpl. rewrite loc_astype.
  destruct (loc (rows spec) e) as [r|]; simpl; [|reflexivity].
  rewrite list_lookup_fmap. destruct (r !! j); reflexivity.
Qed.

Lemma index_astype {I} (df : Frame I scalar) :
  index (astype_float64 df) = index df.
Proof.
  unfold index. simpl. rewrite <- list_fmap_compose. reflexivity.
Qed.

(** C4.  For expression values and a spec that carry the same expressions,
    each once, in whatever order, [compute_utilities] returns a table with
    the choosers' index and the spec's alternatives as columns; the cell of
    a chooser and an alternative is the sum, over the spec's expressions, of
    the chooser's value of the expression, found by its name, times the
    spec's coefficient coerced to float64. *)
Theorem compute_utilities_aligned_product (expression_values : DataFrame)
    (spec : Spec) :
  NoDup (columns expression_values) ->
  NoDup (index spec) ->
  columns expression_values ≡ₚ index spec ->
  exists utilities : DataFrame,
    compute_utilities expression_values spec = Ret utilities
    /\ index utilities = index expression_values
    /\ columns utilities = columns spec
    /\ forall i k values,
         rows expression_values !! i = Some (k, values) ->
         exists urow,
           rows utilities !! i = Some (k, urow)
           /\ length urow = length (columns spec)
           /\ forall j, j < length (columns spec) ->
                urow !! j
                = Some (fsum (map (fun e =>
                                     fmul (cell_named (columns expression_values)
                                             values e)
                                          (float_coefficient spec e j))
                                (index spec))).
Proof.
  intros Hc Hi Hp. unfold compute_utilities, dot.
  rewrite index_astype, (aligned_Permutation _ _ Hc Hi Hp).
  eexists. split; [reflexivity|]. simpl. split; [|split; [reflexivity|]].
  - unfold index. simpl. rewrite <- list_fmap_compose. reflexivity.
  - intros i k values Hi'. rewrite list_lookup_fmap, Hi'. simpl.
    eexists. split; [reflexivity|]. split; [apply length_imap|].
    intros j Hj. rewrite list_lookup_imap.
    destruct (lookup_lt_is_Some_2 (columns spec) j Hj) as [alt ->]. simpl.
    f_equal. apply fsum_Permutation.
    erewrite map_ext; [apply Permutation_map, Hp|].
    intros e. simpl. rewrite cell_at_astype. reflexivity.
Qed.

Lemma compute_utilities_aligned_product_witness :
  let expression_values : DataFrame :=
    mkFrame ["age"; "income"]
      [(7, [Fin (Q2Qc 40); Fin (Q2Qc 3)]); (8, [Fin (Q2Qc 25); Fin (Q2Qc 5)])] in
  let spec : Spec :=
    mkFrame ["walk"; "bike"; "car"]
      [("income", [SInt 1; SInt 0; SBool true]);
       ("age", [SFloat (Fin (Q2Qc 0.5)); SInt (-1); SInt 0])] in
  exists utilities : DataFrame,
    compute_utilities expression_values spec = Ret utilities
    /\ index utilities = index expression_values
    /\ columns utilities = columns spec
    /\ forall i k values,
         rows expression_values !! i = Some (k, values) ->
         exists urow,
           rows utilities !! i = Some (k, urow)
           /\ length urow = length (columns spec)
           /\ forall j, j < length (columns spec) ->
                urow !! j
                = Some (fsum (map (fun e =>
                                     fmul (cell_named (columns expression_values)
                                             values e)
                                          (float_coefficient spec e j))
                                (index spec))).
Proof.
  intros expression_values spec.
  apply (compute_utilities_aligned_product expression_values spec).
  - apply (bool_decide_unpack _). vm_compute. exact I.
  - apply (bool_decide_unpack _). vm_compute. exact I.
  - apply perm_swap.
Defined.

(** ** Frames computed row by row *)

Section FrameOf.
Context {I X V : Type} `{Inhabited V}.
Implicit Types (rs : list (I * X)) (names : list string) (cells : I * X -> list V).

Lemma frame_of_rows (df : Frame I V) :
  df = frame_of (rows df) (columns df) snd.
Proof.
  destruct df as [cols rs]. unfold frame_of. simpl. f_equal.
  induction rs as [|[k r] rs IH]; simpl; [reflexivity|]. by rewrite <- IH.
Qed.

Lemma index_frame_of rs names cells : index (frame_of rs names cells) = rs.*1.
Proof. unfold index, frame_of. simpl. by rewrite <- list_fmap_compose. Qed.

Lemma len_frame_of rs names cells : len (frame_of rs names cells) = length rs.
Proof. unfold len, frame_of. simpl. apply length_map. Qed.

Lemma new_frame_frame_of rs :
  new_frame rs.*1 = frame_of rs [] (fun _ => @nil V).
Proof. unfold new_frame, frame_of. f_equal. by rewrite <- list_fmap_compose. Qed.

Lemma frame_of_app rs rs' names cells :
  rows (frame_of (rs ++ rs') names cells)
  = rows (frame_of rs names cells) ++ rows (frame_of rs' names cells).
Proof. unfold frame_of. simpl. apply map_app. Qed.

Lemma frame_of_ext rs names cells cells' :
  (forall kr, kr ∈ rs -> cells kr = cells' kr) ->
  frame_of rs names cells = frame_of rs names cells'.
Proof.
  intros Hext. unfold frame_of. f_equal. apply map_ext_in.
  intros kr Hin. rewrite Hext; [reflexivity|]. by apply list_elem_of_In.
Qed.

Lemma getitem_frame_of rs names cells (n : string) :
  getitem (frame_of rs names cells) n
  = match position n names with
    | None => Raise (KeyError n)
    | Some p => Ret (map (fun kr => cells kr !!! p) rs)
    end.
Proof.
  unfold getitem, frame_of. simpl. destruct (position n names); [|reflexivity].
  by rewrite map_map.
Qed.

Lemma getitems_frame_of rs names cells (ns : list string) :
  getitems (frame_of rs names cells) ns
  = ps ← positions ns names;
    Ret (frame_of rs ns (fun kr => map (fun p => cells kr !!! p) ps)).
Proof.
  unfold getitems, positions, frame_of. simpl.
  destruct (for_each _ ns); simpl; [reflexivity|]. by rewrite map_map.
Qed.

Lemma zip_with_map_same {A B C D} (f : A -> B -> C) (a : D -> A) (b : D -> B)
    (l : list D) :
  zip_with f (map a l) (map b l) = map (fun x => f (a x) (b x)) l.
Proof. induction l; simpl; [reflexivity|]. by f_equal. Qed.

Lemma setitem_frame_of rs names cells (n : string) (g : I * X -> V) :
  setitem (frame_of rs names cells) n (map g rs)
  = match position n names with
    | Some p => frame_of rs names (fun kr => <[p := g kr]> (cells kr))
    | None => frame_of rs (names ++ [n]) (fun kr => cells kr ++ [g kr])
    end.
Proof.
  unfold setitem, frame_of. simpl.
  destruct (position n names); by rewrite zip_with_map_same.
Qed.

Lemma concat_axis1_frame_of rs names names' cells cells' :
  concat_axis1 (frame_of rs names cells) (frame_of rs names' cells')
  = frame_of rs (names ++ names') (fun kr => cells kr ++ cells' kr).
Proof. unfold concat_axis1, frame_of. simpl. by rewrite zip_with_map_same. Qed.

End FrameOf.

Lemma sum_axis1_frame_of {I X} (rs : list (I * X)) names (cells : I * X -> list fval) :
  sum_axis1 (frame_of rs names cells) = map (fun kr => nansum (cells kr)) rs.
Proof. unfold sum_axis1, frame_of. simpl. by rewrite map_map. Qed.

Lemma prod_axis1_frame_of {I X} (rs : list (I * X)) names (cells : I * X -> list fval) :
  prod_axis1 (frame_of rs names cells) = map (fun kr => nanprod (cells kr)) rs.
Proof. unfold prod_axis1, frame_of. simpl. by rewrite map_map. Qed.

(** Cells found by name in a row that grows at its end. *)
Lemma position_app_l (names : list string) (n m : string) (p : nat) :
  position m names = Some p -> position m (names ++ [n]) = Some p.
Proof.
  revert p. induction names as [|l ls IH]; intros p; simpl; [discriminate|].
  destruct (decide (l = m)); [done|].
  destruct (position m ls) as [q|]; simpl; [|discriminate].
  intros [= <-]. by rewrite (IH q).
Qed.

Lemma position_app_fresh (names : list string) (n : string) :
  n ∉ names -> position n (names ++ [n]) = Some (length names).
Proof.
  induction names as [|l ls IH]; simpl; intros Hn.
  - by rewrite decide_True.
  - apply not_elem_of_cons in Hn as [Hne Hn].
    rewrite decide_False by congruence. by rewrite IH.
Qed.

Lemma position_lt (names : list string) (m : string) (p : nat) :
  position m names = Some p -> p < length names.
Proof. intros Hp. apply position_Some in Hp. by eapply lookup_lt_Some. Qed.

Lemma cell_named_app_old {V} `{Inhabited V} (names : list string) (r : list V)
    (n m : string) (v : V) :
  length r = length names -> m ∈ names ->
  cell_named (names ++ [n]) (r ++ [v]) m = cell_named names r m.
Proof.
  intros Hlen Hin. destruct (position_elem_of names m Hin) as [p Hp].
  unfold cell_named. rewrite (position_app_l names n m p Hp), Hp.
  apply lookup_total_app_l. rewrite Hlen. by eapply position_lt.
Qed.

Lemma cell_named_app_new {V} `{Inhabited V} (names : list string) (r : list V)
    (n : string) (v : V) :
  length r = length names -> n ∉ names ->
  cell_named (names ++ [n]) (r ++ [v]) n = v.
Proof.
  intros Hlen Hn. unfold cell_named. rewrite (position_app_fresh names n Hn).
  by apply list_lookup_total_middle.
Qed.

(** ** Nest trees and their traversal *)

(** Induction on nest trees: the children of a node satisfy the property. *)
Lemma nest_spec_induction (P : nest_spec -> Prop) :
  (forall n, P (Alternative n)) ->
  (forall n c alts, Forall P alts -> P (NestNode n c alts)) ->
  forall t, P t.
Proof.
  intros Hleaf Hnode. fix IH 1. intros [n|n c alts]; [apply Hleaf|].
  apply Hnode. induction alts as [|a alts IHalts]; constructor.
  - apply IH.
  - exact IHalts.
Qed.

Lemma filter_all {A} (l : list A) : List.filter (fun _ => true) l = l.
Proof. induction l; simpl; congruence. Qed.

Lemma each_nest_all (t : nest_spec) (post_order : bool) :
  each_nest t None post_order = _each_nest post_order true fone [] t.
Proof. unfold each_nest. apply filter_all. Qed.

Lemma in_each_nest_node (po ar : bool) (pp : fval) (pa : list string)
    (n : string) (c : fval) (alts : list nest_spec) (nest : Nest) :
  In nest (_each_nest po ar pp pa (NestNode n c alts)) <->
  nest = mkNest n false c (if ar then pp else fmul pp c) (map spec_name alts)
           (pa ++ [n])
  \/ exists a, In a alts
       /\ In nest (_each_nest po false (if ar then pp else fmul pp c) (pa ++ [n]) a).
Proof.
  cbn [_each_nest]. destruct po.
  - rewrite in_app_iff, in_flat_map. simpl. intuition (subst; auto).
  - simpl. rewrite in_flat_map. intuition (subst; auto).
Qed.

Lemma leaf_record (t : nest_spec) (l : string) (cs : list fval) :
  leaf_under t l cs ->
  forall po ar pp pa, exists nest,
    In nest (_each_nest po ar pp pa t)
    /\ name nest = l /\ is_leaf nest = true
    /\ product_of_coefficients nest = foldl fmul pp (if ar then drop 1 cs else cs).
Proof.
  induction 1 as [n|n c alts a l cs Ha _ IH]; intros po ar pp pa.
  - eexists. split; [left; reflexivity|]. simpl. by destruct ar.
  - destruct (IH po false (if ar then pp else fmul pp c) (pa ++ [n]))
      as (nest & Hin & Hname & Hleaf & Hprod).
    exists nest. split; [|split; [done|split; [done|]]].
    + apply in_each_nest_node. right. eauto.
    + rewrite Hprod. by destruct ar.
Qed.

Lemma path_record (t : nest_spec) (l : string) (names : list string) :
  leaf_path t l names ->
  forall po ar pp pa, exists nest,
    In nest (_each_nest po ar pp pa t)
    /\ name nest = l /\ is_leaf nest = true /\ ancestors nest = pa ++ names.
Proof.
  induction 1 as [n|n c alts a l names Ha _ IH]; intros po ar pp pa.
  - eexists. split; [left; reflexivity|]. done.
  - destruct (IH po false (if ar then pp else fmul pp c) (pa ++ [n]))
      as (nest & Hin & Hname & Hleaf & Hanc).
    exists nest. split; [|split; [done|split; [done|]]].
    + apply in_each_nest_node. right. eauto.
    + rewrite Hanc. by rewrite <- app_assoc.
Qed.

Lemma node_record (t : nest_spec) (m : string) (c' : fval) (children : list string) :
  node_in t m c' children ->
  forall po ar pp pa, exists nest,
    In nest (_each_nest po ar pp pa t)
    /\ name nest = m /\ is_leaf nest = false
    /\ coefficient nest = c' /\ alternatives nest = children.
Proof.
  induction 1 as [n c alts|n c alts a m c' children Ha _ IH]; intros po ar pp pa.
  - eexists. split; [apply in_each_nest_node; left; reflexivity|]. done.
  - destruct (IH po false (if ar then pp else fmul pp c) (pa ++ [n]))
      as (nest & Hin & Hrest).
    exists nest. split; [|done]. apply in_each_nest_node. right. eauto.
Qed.

Lemma each_nest_names (t : nest_spec) :
  forall po ar pp pa, map name (_each_nest po ar pp pa t) ≡ₚ tree_names t.
Proof.
  induction t as [n|n c alts IH] using nest_spec_induction; intros po ar pp pa.
  - reflexivity.
  - cbn [_each_nest tree_names].
    set (pp' := if ar then pp else fmul pp c).
    assert (Hbelow : map name (flat_map (_each_nest po false pp' (pa ++ [n])) alts)
                     ≡ₚ flat_map tree_names alts).
    { induction IH as [|a alts Ha _ IHalts]; simpl; [reflexivity|].
      rewrite map_app. by rewrite Ha, IHalts. }
    destruct po; simpl.
    + rewrite map_app. simpl. rewrite Hbelow.
      symmetry. apply Permutation_cons_append.
    + by rewrite Hbelow.
Qed.

Lemma each_nest_leaf (t : nest_spec) :
  forall po ar pp pa nest,
    In nest (_each_nest po ar pp pa t) -> is_leaf nest = true ->
    In (name nest) (leaf_names t).
Proof.
  induction t as [n|n c alts IH] using nest_spec_induction;
    intros po ar pp pa nest Hin Hleaf.
  - destruct Hin as [<-|[]]. by left.
  - apply in_each_nest_node in Hin as [->|(a & Ha & Hin)]; [discriminate|].
    cbn [leaf_names]. apply in_flat_map. exists a. split; [done|].
    rewrite Forall_forall in IH. eapply IH; eauto. by apply list_elem_of_In.
Qed.

Lemma each_nest_own_name (t : nest_spec) (po ar : bool) (pp : fval)
    (pa : list string) :
  In (spec_name t) (map name (_each_nest po ar pp pa t)).
Proof.
  destruct t as [n|n c alts]; cbn [_each_nest]; [by left|].
  destruct po; simpl.
  - rewrite map_app, in_app_iff. right. by left.
  - by left.
Qed.

Lemma children_first_app (before : list string) (l l' : list Nest) :
  children_first before l ->
  children_first (before ++ map name l) l' ->
  children_first before (l ++ l').
Proof.
  intros Hl Hl' l1 nest l2 Heq Hnode child Hchild.
  apply app_eq_app in Heq as [m [[-> Heq]|[-> Heq]]].
  - destruct m as [|nest' m]; simpl in Heq.
    + specialize (Hl' [] nest l2 (eq_sym Heq) Hnode child Hchild).
      simpl in Hl'. by rewrite !app_nil_r in *.
    + injection Heq as <- ->.
      exact (Hl l1 nest m eq_refl Hnode child Hchild).
  - specialize (Hl' m nest l2 Heq Hnode child Hchild).
    by rewrite map_app, app_assoc.
Qed.

Lemma children_first_mono (before before' : list string) (l : list Nest) :
  (forall x, In x before -> In x before') ->
  children_first before l -> children_first before' l.
Proof.
  intros Hsub Hl l1 nest l2 Heq Hnode child Hchild.
  specialize (Hl l1 nest l2 Heq Hnode child Hchild).
  rewrite in_app_iff in *. intuition.
Qed.

Lemma children_first_tail (before : list string) (nest : Nest) (l : list Nest) :
  children_first before (nest :: l) ->
  children_first (before ++ [name nest]) l.
Proof.
  intros Hl l1 nest' l2 -> Hnode child Hchild.
  specialize (Hl (nest :: l1) nest' l2 eq_refl Hnode child Hchild).
  simpl in Hl. by rewrite <- app_assoc.
Qed.

(** A post-order traversal yields every node after its children. *)
Lemma children_first_post_order (t : nest_spec) :
  forall ar pp pa before, children_first before (_each_nest true ar pp pa t).
Proof.
  induction t as [n|n c alts IH] using nest_spec_induction;
    intros ar pp pa before.
  - intros [|x l1] nest l2 Heq Hnode; simpl in Heq.
    + injection Heq as <- _. discriminate.
    + injection Heq as _ Heq. by destruct l1.
  - cbn [_each_nest]. set (pp' := if ar then pp else fmul pp c).
    apply children_first_app.
    + clear -IH. revert before.
      induction IH as [|a alts Ha _ IHalts]; intros before; simpl.
      * intros [|] ? ? Heq; discriminate.
      * apply children_first_app; [apply Ha | apply IHalts].
    + intros [|x l1] nest l2 Heq Hnode child Hchild; simpl in Heq.
      * injection Heq as <- _. simpl in Hchild. rewrite app_nil_r.
        apply in_app_iff. right.
        apply in_map_iff in Hchild as (a & <- & Ha).
        apply in_map_iff.
        pose proof (each_nest_own_name a true false pp' (pa ++ [n])) as Hown.
        apply in_map_iff in Hown as (nest' & Hname & Hin).
        exists nest'. split; [done|]. apply in_flat_map. eauto.
      * injection Heq as _ Heq. by destruct l1.
Qed.

Lemma positions_found (alts names : list string) :
  (forall a, In a alts -> In a names) ->
  exists ps, positions alts names = Ret ps
    /\ forall r : list fval,
         map (fun p => r !!! p) ps = map (cell_named names r) alts.
Proof.
  unfold positions. induction alts as [|a alts IH]; intros Hin; simpl.
  - exists []. split; [reflexivity|]. reflexivity.
  - destruct IH as (ps & Hps & Hcells); [intros; apply Hin; by right|].
    destruct (position_elem_of names a) as [p Hp].
    { apply list_elem_of_In, Hin. by left. }
    rewrite Hp. simpl. rewrite Hps. simpl.
    exists (p :: ps). split; [reflexivity|].
    intros r. simpl. rewrite Hcells. f_equal. unfold cell_named. by rewrite Hp.
Qed.

(** ** The loop of [compute_nested_exp_utilities] *)

Section NestedExpUtilities.
Context `{World} {X : Type}.
Implicit Types (rs : list (nat * X)) (cells rcells : nat * X -> list fval).

Lemma nested_exp_utilities_step_fresh rnames rcells names cells (nest : Nest) :
  (forall kr, length (cells kr) = length names) ->
  ~ In (name nest) names ->
  (is_leaf nest = true -> In (name nest) rnames) ->
  (is_leaf nest = false -> forall a, In a (alternatives nest) -> In a names) ->
  forall rs,
    nested_exp_utilities_step (frame_of rs rnames rcells) (frame_of rs names cells) nest
    = Ret (frame_of rs (names ++ [name nest])
             (fun kr => cells kr ++ [exp_utility rnames (rcells kr) names (cells kr) nest])).
Proof.
  intros Hlen Hfresh Hleaf Hnode rs.
  assert (Hpos : position (name nest) names = None).
  { apply position_None. by rewrite list_elem_of_In. }
  assert (Hnew : position (name nest) (names ++ [name nest]) = Some (length names)).
  { apply position_app_fresh. by rewrite list_elem_of_In. }
  assert (Hfin : forall g : nat * X -> fval,
    (values ← getitem (frame_of rs (names ++ [name nest])
                         (fun kr => cells kr ++ [g kr])) (name nest);
     Ret (setitem (frame_of rs (names ++ [name nest])
                     (fun kr => cells kr ++ [g kr])) (name nest) (map exp values)))
    = Ret (frame_of rs (names ++ [name nest]) (fun kr => cells kr ++ [exp (g kr)]))).
  { intros g. rewrite getitem_frame_of, Hnew. simpl.
    rewrite map_map, setitem_frame_of, Hnew. f_equal.
    apply frame_of_ext. intros kr _.
    rewrite list_lookup_total_middle by (by rewrite Hlen).
    rewrite <- (Hlen kr), <- (Nat.add_0_r (length (cells kr))).
    by rewrite insert_app_r. }
  unfold nested_exp_utilities_step, exp_utility.
  destruct (is_leaf nest) eqn:Eleaf.
  - destruct (position_elem_of rnames (name nest)) as [p Hp].
    { apply list_elem_of_In. by apply Hleaf. }
    rewrite getitem_frame_of, Hp. simpl.
    rewrite map_map, setitem_frame_of, Hpos.
    rewrite (Hfin (fun kr => fdiv (rcells kr !!! p) (product_of_coefficients nest))).
    f_equal. apply frame_of_ext. intros kr _.
    unfold cell_named. by rewrite Hp.
  - destruct (positions_found (alternatives nest) names (Hnode eq_refl))
      as (ps & Hps & Hcells).
    rewrite getitems_frame_of, Hps. simpl.
    rewrite sum_axis1_frame_of, map_map, setitem_frame_of, Hpos.
    rewrite (Hfin (fun kr => fmul (coefficient nest)
                               (log (nansum (map (fun p => cells kr !!! p) ps))))).
    f_equal. apply frame_of_ext. intros kr _. by rewrite Hcells.
Qed.

Lemma nested_exp_utilities_loop rnames rcells (nests : list Nest) :
  forall names cells,
  (forall kr, length (cells kr) = length names) ->
  NoDup (names ++ map name nests) ->
  (forall nest, In nest nests -> is_leaf nest = true -> In (name nest) rnames) ->
  children_first names nests ->
  exists cells',
    (forall rs,
       for_fold (nested_exp_utilities_step (frame_of rs rnames rcells))
         (frame_of rs names cells) nests
       = Ret (frame_of rs (names ++ map name nests) cells'))
    /\ (forall kr, length (cells' kr) = length (names ++ map name nests))
    /\ (forall kr m, In m names ->
          cell_named (names ++ map name nests) (cells' kr) m
          = cell_named names (cells kr) m)
    /\ (forall kr nest, In nest nests ->
          cell_named (names ++ map name nests) (cells' kr) (name nest)
          = exp_utility rnames (rcells kr) (names ++ map name nests) (cells' kr) nest).
Proof.
  induction nests as [|nest rest IH]; intros names cells Hlen Hnd Hleaves Hcf.
  - exists cells. simpl. rewrite app_nil_r. by repeat split.
  - assert (Hfresh : ~ In (name nest) names).
    { apply NoDup_app in Hnd as (_ & Hdisj & _). intros Hin.
      apply (Hdisj (name nest)); [by apply list_elem_of_In|]. simpl. left. }
    assert (Hchildren : is_leaf nest = false ->
              forall a, In a (alternatives nest) -> In a names).
    { intros Hnode a Ha. specialize (Hcf [] nest rest eq_refl Hnode a Ha).
      simpl in Hcf. by rewrite app_nil_r in Hcf. }
    set (cells1 := fun kr =>
           cells kr ++ [exp_utility rnames (rcells kr) names (cells kr) nest]).
    destruct (IH (names ++ [name nest]) cells1) as (cells' & Hrun & Hlen' & Hold & Hnew).
    { intros kr. unfold cells1. rewrite !length_app, Hlen. reflexivity. }
    { by rewrite <- app_assoc. }
    { intros nest' Hin. apply Hleaves. by right. }
    { by apply children_first_tail. }
    simpl in *. rewrite <- app_assoc in Hrun, Hlen', Hold, Hnew. simpl in *.
    assert (Hkeep : forall kr m, In m names ->
              cell_named (names ++ name nest :: map name rest) (cells' kr) m
              = cell_named names (cells kr) m).
    { intros kr m Hm. rewrite Hold by (apply in_app_iff; by left).
      unfold cells1. apply cell_named_app_old; [apply Hlen|].
      by apply list_elem_of_In. }
    exists cells'. split; [|split; [done|split; [done|]]].
    + intros rs.
      rewrite (nested_exp_utilities_step_fresh rnames rcells names cells nest
                 Hlen Hfresh (Hleaves nest (or_introl eq_refl)) Hchildren rs).
      simpl. apply Hrun.
    + intros kr nest' [<-|Hin]; [|by apply Hnew].
      rewrite Hold by (apply in_app_iff; right; by left).
      unfold cells1. rewrite cell_named_app_new;
        [|apply Hlen|by rewrite list_elem_of_In].
      unfold exp_utility. destruct (is_leaf nest) eqn:Eleaf; [reflexivity|].
      do 4 f_equal. apply map_ext_in. intros a Ha. symmetry.
      apply Hkeep. by apply Hchildren.
Qed.

End NestedExpUtilities.

(** ** C2 and C5: exponentiated nest utilities *)

Section ExpUtilities.
Context `{World}.

(** The result of [compute_nested_exp_utilities], row by row: the columns
    are the nests in post-order and every cell is what one pass of the loop
    computes for its nest from the finished row. *)
Lemma nested_exp_utilities_cells (raw_utilities : DataFrame) (t : nest_spec) :
  NoDup (tree_names t) ->
  (forall l, In l (leaf_names t) -> In l (columns raw_utilities)) ->
  exists cells : nat * list fval -> list fval,
    compute_nested_exp_utilities raw_utilities t
    = Ret (frame_of (rows raw_utilities) (map name (each_nest t None true)) cells)
    /\ forall kr nest, In nest (each_nest t None true) ->
         cell_named (map name (each_nest t None true)) (cells kr) (name nest)
         = exp_utility (columns raw_utilities) kr.2
             (map name (each_nest t None true)) (cells kr) nest.
Proof.
  intros Hnd Hleaves. unfold compute_nested_exp_utilities.
  rewrite each_nest_all. unfold index. rewrite new_frame_frame_of.
  destruct (nested_exp_utilities_loop (columns raw_utilities) snd
              (_each_nest true true fone [] t) [] (fun _ => []))
    as (cells & Hrun & _ & _ & Hcells).
  - reflexivity.
  - simpl. by rewrite (each_nest_names t true true fone []).
  - intros nest Hin Hleaf. apply Hleaves. by eapply each_nest_leaf.
  - apply children_first_post_order.
  - exists cells. specialize (Hrun (rows raw_utilities)).
    rewrite <- frame_of_rows in Hrun. simpl in *. split; [exact Hrun|].
    intros kr nest Hin. by apply Hcells.
Qed.

(** C2.  For a nest tree with distinct names whose leaves are all columns of
    the raw utilities, [compute_nested_exp_utilities] returns a table over
    the same index with one column per nest, children before parents.  In
    every row the cell of a leaf is [exp] of its raw utility divided by the
    product of the coefficients of the nests above it, the root's left out;
    the cell of a nest is [exp] of its coefficient times [log] of the sum of
    its children's cells. *)
Theorem nested_exp_utilities_formula (raw_utilities : DataFrame) (t : nest_spec) :
  NoDup (tree_names t) ->
  (forall l, In l (leaf_names t) -> In l (columns raw_utilities)) ->
  exists nested : DataFrame,
    compute_nested_exp_utilities raw_utilities t = Ret nested
    /\ index nested = index raw_utilities
    /\ columns nested = map name (each_nest t None true)
    /\ children_first [] (each_nest t None true)
    /\ forall i k r, rows nested !! i = Some (k, r) ->
         exists raw_row,
           rows raw_utilities !! i = Some (k, raw_row)
           /\ (forall l cs, leaf_under t l cs ->
                 cell_named (columns nested) r l
                 = exp (fdiv (cell_named (columns raw_utilities) raw_row l)
                          (product_of (drop 1 cs))))
           /\ (forall n c children, node_in t n c children ->
                 cell_named (columns nested) r n
                 = exp (fmul c (log (nansum (map (cell_named (columns nested) r)
                                               children))))).
Proof.
  intros Hnd Hleaves.
  destruct (nested_exp_utilities_cells raw_utilities t Hnd Hleaves)
    as (cells & Hrun & Hcells).
  eexists. split; [exact Hrun|]. split; [apply index_frame_of|].
  split; [reflexivity|]. split.
  { rewrite each_nest_all. apply children_first_post_order. }
  intros i k r Hrow. simpl in Hrow. rewrite list_lookup_fmap in Hrow.
  destruct (rows raw_utilities !! i) as [[k' raw_row]|] eqn:Eraw; [|discriminate].
  simpl in Hrow. injection Hrow as <- <-.
  exists raw_row. split; [reflexivity|]. cbn [columns frame_of]. split.
  - intros l cs Hl.
    destruct (leaf_record t l cs Hl true true fone [])
      as (nest & Hin & <- & Hleaf & Hprod).
    rewrite <- each_nest_all in Hin.
    rewrite (Hcells (k', raw_row) nest Hin). unfold exp_utility.
    rewrite Hleaf, Hprod. reflexivity.
  - intros n c children Hn.
    destruct (node_record t n c children Hn true true fone [])
      as (nest & Hin & <- & Hnode & <- & <-).
    rewrite <- each_nest_all in Hin.
    rewrite (Hcells (k', raw_row) nest Hin). unfold exp_utility.
    rewrite Hnode. reflexivity.
Qed.

Lemma nansum_zeros (xs : list fval) :
  (forall x, In x xs -> x = fzero) -> nansum xs = fzero.
Proof.
  unfold nansum. induction xs as [|x xs IH]; intros Hz; [reflexivity|].
  cbn [foldl]. rewrite (Hz x (or_introl eq_refl)). cbn [isnan fzero].
  replace (fadd (Fin 0) (Fin 0)) with fzero by (by rewrite fadd_0_r).
  apply IH. intros y Hy. apply Hz. by right.
Qed.

(** C5.  When the cells of all the children of a nest are zero in a row,
    and the nest's coefficient is a positive number, the call returns and
    the cell of the nest is zero in that row: the logarithm of the zero sum
    is minus infinity, the positive coefficient leaves it there, and the
    final exponentiation turns it into zero. *)
Theorem zero_children_give_zero (raw_utilities : DataFrame) (t : nest_spec)
    (n : string) (c : Qc) (children : list string) :
  NoDup (tree_names t) ->
  (forall l, In l (leaf_names t) -> In l (columns raw_utilities)) ->
  node_in t n (Fin c) children ->
  (0 < c)%Qc ->
  (exists nested, compute_nested_exp_utilities raw_utilities t = Ret nested)
  /\ log fzero = NegInf
  /\ fmul (Fin c) NegInf = NegInf
  /\ exp NegInf = fzero
  /\ forall nested i k r,
       compute_nested_exp_utilities raw_utilities t = Ret nested ->
       rows nested !! i = Some (k, r) ->
       (forall child, In child children ->
          cell_named (columns nested) r child = fzero) ->
       cell_named (columns nested) r n = fzero.
Proof.
  intros Hnd Hleaves Hn Hc.
  destruct (nested_exp_utilities_cells raw_utilities t Hnd Hleaves)
    as (cells & Hrun & Hcells).
  assert (Hmul : fmul (Fin c) NegInf = NegInf).
  { simpl. unfold scale_inf. apply Qcgt_alt in Hc. by rewrite Hc. }
  split; [eauto|]. split; [reflexivity|]. split; [exact Hmul|].
  split; [reflexivity|].
  intros nested i k r Hnested Hrow Hzero.
  rewrite Hrun in Hnested. injection Hnested as <-.
  simpl in Hrow. rewrite list_lookup_fmap in Hrow.
  destruct (rows raw_utilities !! i) as [kr|] eqn:Eraw; [|discriminate].
  simpl in Hrow. injection Hrow as <- <-.
  destruct (node_record t n (Fin c) children Hn true true fone [])
    as (nest & Hin & <- & Hnode & Hcoef & <-).
  rewrite <- each_nest_all in Hin.
  cbn [columns frame_of] in *.
  rewrite (Hcells kr nest Hin). unfold exp_utility. rewrite Hnode, Hcoef.
  rewrite nansum_zeros.
  - change (log fzero) with NegInf. rewrite Hmul. reflexivity.
  - intros x Hx. apply in_map_iff in Hx as (child & <- & Hchild).
    by apply Hzero.
Qed.

End ExpUtilities.

Lemma nested_exp_utilities_formula_witness :
  let W := Example.world (fun _ => fzero) in
  let t := NestNode "root" fone
             [NestNode "transit" (Fin (Q2Qc 0.5))
                [Alternative "bus"; Alternative "rail"];
              Alternative "car"] in
  let raw_utilities : DataFrame :=
    mkFrame ["car"; "bus"; "rail"]
      [(7, [fone; Fin (Q2Qc 2); fzero]); (8, [fzero; NegInf; NegInf])] in
  exists nested : DataFrame,
    compute_nested_exp_utilities raw_utilities t = Ret nested
    /\ index nested = index raw_utilities
    /\ columns nested = map name (each_nest t None true)
    /\ children_first [] (each_nest t None true)
    /\ forall i k r, rows nested !! i = Some (k, r) ->
         exists raw_row,
           rows raw_utilities !! i = Some (k, raw_row)
           /\ (forall l cs, leaf_under t l cs ->
                 cell_named (columns nested) r l
                 = exp (fdiv (cell_named (columns raw_utilities) raw_row l)
                          (product_of (drop 1 cs))))
           /\ (forall n c children, node_in t n c children ->
                 cell_named (columns nested) r n
                 = exp (fmul c (log (nansum (map (cell_named (columns nested) r)
                                               children))))).
Proof.
  intros W t raw_utilities.
  apply (nested_exp_utilities_formula raw_utilities t).
  - apply (bool_decide_unpack _). vm_compute. exact I.
  - intros l Hl. simpl in *. tauto.
Defined.

Lemma zero_children_give_zero_witness :
  let W := Example.world (fun _ => fzero) in
  let t := NestNode "root" fone
             [NestNode "transit" (Fin (Q2Qc 0.5))
                [Alternative "bus"; Alternative "rail"];
              Alternative "car"] in
  let raw_utilities : DataFrame :=
    mkFrame ["car"; "bus"; "rail"] [(7, [fone; NegInf; NegInf])] in
  exists nested r,
    compute_nested_exp_utilities raw_utilities t = Ret nested
    /\ rows nested !! 0 = Some (7, r)
    /\ (forall child, In child ["bus"; "rail"] ->
          cell_named (columns nested) r child = fzero)
    /\ cell_named (columns nested) r "transit" = fzero.
Proof.
  intros W t raw_utilities.
  destruct (zero_children_give_zero raw_utilities t "transit" (Q2Qc 0.5)
              ["bus"; "rail"])
    as ([nested Hrun] & _ & _ & _ & Hzero).
  - apply (bool_decide_unpack _). vm_compute. exact I.
  - intros l Hl. simpl in *. tauto.
  - apply (node_below "root" fone _
             (NestNode "transit" (Fin (Q2Qc 0.5))
                [Alternative "bus"; Alternative "rail"])); [simpl; tauto|].
    apply (node_here "transit" (Fin (Q2Qc 0.5))
             [Alternative "bus"; Alternative "rail"]).
  - reflexivity.
  - assert (Hrow : exists r, rows nested !! 0 = Some (7, r)
                     /\ forall child, In child ["bus"; "rail"] ->
                          cell_named (columns nested) r child = fzero).
    { revert Hrun. vm_compute. intros [= <-]. eexists. split; [reflexivity|].
      intros child [<-|[<-|[]]]; reflexivity. }
    destruct Hrow as (r & Hrow & Hchildren).
    exists nested, r. split; [exact Hrun|]. split; [exact Hrow|].
    split; [exact Hchildren|].
    exact (Hzero nested 0 7 r Hrun Hrow Hchildren).
Defined.

(** ** Leaves and their paths *)

Lemma filter_flat_map {A B} (P : B -> bool) (f : A -> list B) (l : list A) :
  List.filter P (flat_map f l) = flat_map (fun a => List.filter P (f a)) l.
Proof.
  induction l as [|a l IH]; simpl; [reflexivity|].
  by rewrite List.filter_app, IH.
Qed.

Lemma map_flat_map {A B C} (g : B -> C) (f : A -> list B) (l : list A) :
  map g (flat_map f l) = flat_map (fun a => map g (f a)) l.
Proof.
  induction l as [|a l IH]; simpl; [reflexivity|]. by rewrite map_app, IH.
Qed.

Lemma flat_map_ext_Forall {A B} (f g : A -> list B) (l : list A) :
  Forall (fun a => f a = g a) l -> flat_map f l = flat_map g l.
Proof. induction 1 as [|a l Ha _ IH]; simpl; [reflexivity|]. by rewrite Ha, IH. Qed.

Lemma leaf_test (nest : Nest) : bool_decide (type_of nest = leaf) = is_leaf nest.
Proof. unfold type_of. by destruct (is_leaf nest). Qed.

Lemma node_test (nest : Nest) :
  bool_decide (type_of nest = node) = negb (is_leaf nest).
Proof. unfold type_of. by destruct (is_leaf nest). Qed.

(** The leaves a pre-order traversal yields are the leaves of the tree, left
    to right, each with the path that leads to it. *)
Lemma leaf_records (t : nest_spec) :
  forall ar pp pa,
    let leaves := List.filter is_leaf (_each_nest false ar pp pa t) in
    map name leaves = leaf_names t
    /\ map ancestors leaves = map (app pa) (leaf_paths t).
Proof.
  induction t as [n|n c alts IH] using nest_spec_induction; intros ar pp pa.
  - by split.
  - cbn [_each_nest leaf_names leaf_paths]. cbn zeta.
    set (pp' := if ar then pp else fmul pp c).
    cbn [List.filter is_leaf]. rewrite filter_flat_map. split.
    + rewrite map_flat_map. apply flat_map_ext_Forall.
      eapply Forall_impl; [exact IH|]. intros a Ha. apply Ha.
    + rewrite !map_flat_map. apply flat_map_ext_Forall.
      eapply Forall_impl; [exact IH|]. intros a Ha. cbn beta.
      destruct (Ha false pp' (pa ++ [n])) as [_ ->].
      rewrite !map_map. apply map_ext. intros path. by rewrite <- app_assoc.
Qed.

Lemma leaf_paths_within (t : nest_spec) :
  forall path, In path (leaf_paths t) ->
    exists rest, path = spec_name t :: rest
      /\ forall m, In m rest -> In m (drop 1 (tree_names t)).
Proof.
  induction t as [n|n c alts IH] using nest_spec_induction; intros path Hin.
  - destruct Hin as [<-|[]]. exists []. split; [reflexivity|]. intros m [].
  - cbn [leaf_paths] in Hin. apply in_map_iff in Hin as (path' & <- & Hin).
    apply in_flat_map in Hin as (a & Ha & Hin).
    rewrite Forall_forall in IH.
    destruct (IH a (proj2 (list_elem_of_In _ _) Ha) path' Hin) as (rest & -> & Hrest).
    exists (spec_name a :: rest). split; [reflexivity|].
    intros m Hm. cbn [tree_names]. simpl. apply in_flat_map. exists a.
    split; [done|]. destruct Hm as [<-|Hm].
    + destruct a; simpl; by left.
    + specialize (Hrest m Hm). destruct (tree_names a); simpl in *; [done|by right].
Qed.

Lemma NoDup_map_filter {A B} (f : A -> B) (P : A -> bool) (l : list A) :
  NoDup (map f l) -> NoDup (map f (List.filter P l)).
Proof.
  induction l as [|a l IH]; simpl; [done|].
  rewrite NoDup_cons. intros [Hn Hnd]. destruct (P a); simpl; [|by apply IH].
  apply NoDup_cons. split; [|by apply IH].
  intros Hin. apply Hn. apply list_elem_of_In in Hin. apply list_elem_of_In.
  apply in_map_iff in Hin as (x & Hx & Hin). apply in_map_iff.
  exists x. split; [done|]. apply List.filter_In in Hin. tauto.
Qed.

Lemma cell_named_map {A V} `{Inhabited V} (label : A -> string) (f : A -> V)
    (l : list A) (a : A) :
  NoDup (map label l) -> In a l ->
  cell_named (map label l) (map f l) (label a) = f a.
Proof.
  intros Hnd Hin. apply list_elem_of_In, list_elem_of_lookup in Hin as [i Hi].
  unfold cell_named.
  rewrite (position_NoDup (map label l) (label a) i Hnd)
    by (by rewrite list_lookup_fmap, Hi).
  apply list_lookup_total_correct. by rewrite list_lookup_fmap, Hi.
Qed.

(** ** Sums and products of finite cells *)

Lemma nanprod_not_finite (xs : list fval) :
  forall acc, (forall q, acc <> Fin q) ->
    forall r, foldl (fun acc x => if isnan x then acc else fmul acc x) acc xs
              <> Fin r.
Proof.
  induction xs as [|x xs IH]; intros acc Hacc r; cbn [foldl]; [apply Hacc|].
  apply IH. intros q.
  destruct x as [| | |c]; cbn [isnan]; [apply Hacc|..];
    destruct acc as [| | |a]; try discriminate; try (by destruct (Hacc a)).
  all: simpl; unfold scale_inf; destruct (c ?= 0)%Qc; discriminate.
Qed.

Lemma nanprod_from (xs : list fval) :
  forall b r,
    foldl (fun acc x => if isnan x then acc else fmul acc x) (Fin b) xs = Fin r ->
    exists m, r = (b * m)%Qc
      /\ forall a, foldl (fun acc x => if isnan x then acc else fmul acc x)
                     (Fin a) xs = Fin (a * m)%Qc.
Proof.
  induction xs as [|x xs IH]; intros b r Hr; cbn [foldl] in *.
  - injection Hr as <-. exists 1%Qc. split; [ring|]. intros a. f_equal. ring.
  - destruct x as [| | |c]; cbn [isnan] in *.
    + by apply IH.
    + exfalso. revert Hr. apply nanprod_not_finite. intros q. simpl.
      unfold scale_inf. destruct (b ?= 0)%Qc; discriminate.
    + exfalso. revert Hr. apply nanprod_not_finite. intros q. simpl.
      unfold scale_inf. destruct (b ?= 0)%Qc; discriminate.
    + simpl in Hr. destruct (IH _ _ Hr) as (m & -> & Hall).
      exists (c * m)%Qc. split; [ring|]. intros a. simpl. rewrite Hall.
      f_equal. ring.
Qed.

Lemma nanprod_cons_finite (q : Qc) (ys : list fval) (r : Qc) :
  nanprod ys = Fin r -> nanprod (Fin q :: ys) = Fin (q * r)%Qc.
Proof.
  unfold nanprod, fone. intros Hr. cbn [foldl isnan]. simpl.
  destruct (nanprod_from ys 1%Qc r Hr) as (m & -> & Hall).
  rewrite Hall. f_equal. ring.
Qed.

Lemma nansum_finite (ts : list Qc) : nansum (map Fin ts) = Fin (qsum ts).
Proof.
  unfold nansum, fzero.
  enough (Hacc : forall a, foldl (fun acc x => if isnan x then acc else fadd acc x)
                             (Fin a) (map Fin ts) = Fin (a + qsum ts)%Qc).
  { rewrite Hacc. f_equal. ring. }
  induction ts as [|t ts IH]; intros a; simpl.
  - f_equal. ring.
  - rewrite IH. f_equal. ring.
Qed.

Lemma qsum_app (xs ys : list Qc) : qsum (xs ++ ys) = (qsum xs + qsum ys)%Qc.
Proof.
  unfold qsum. induction xs as [|x xs IH]; simpl; [ring|]. rewrite IH. ring.
Qed.

Lemma qsum_scale (q : Qc) (xs : list Qc) :
  qsum (map (Qcmult q) xs) = (q * qsum xs)%Qc.
Proof.
  unfold qsum. induction xs as [|x xs IH]; simpl; [ring|]. rewrite IH. ring.
Qed.

(** Flattening a tree of local probabilities: when the children of every
    nest hold finite values that sum to one, so do the products along the
    paths to the leaves, the top of the tree left out. *)
Lemma flattened_sum (cell : string -> fval) (t : nest_spec) :
  (forall n c children, node_in t n c children ->
     exists qs, map cell children = map Fin qs /\ qsum qs = 1%Qc) ->
  exists ts,
    map (fun path => nanprod (map cell (drop 1 path))) (leaf_paths t) = map Fin ts
    /\ qsum ts = 1%Qc.
Proof.
  induction t as [n|n c alts IH] using nest_spec_induction; intros Hnodes.
  - exists [1%Qc]. split; [reflexivity|]. unfold qsum. simpl. ring.
  - destruct (Hnodes n c _ (node_here n c alts)) as (qs & Hqs & Hone).
    cbn [leaf_paths]. rewrite map_map. cbn [drop].
    assert (Hsub : Forall (fun a =>
              exists ts,
                map (fun path => nanprod (map cell (drop 1 path))) (leaf_paths a)
                = map Fin ts /\ qsum ts = 1%Qc) alts).
    { rewrite Forall_forall in IH. apply Forall_forall. intros a Ha.
      apply IH; [done|]. intros m c' children Hm.
      apply (Hnodes m c' children). eapply node_below; [|exact Hm].
      by apply list_elem_of_In. }
    clear IH Hnodes. rewrite <- Hone. clear Hone.
    revert qs Hqs. induction Hsub as [|a alts (ts & Hts & Hsum) _ IHalts];
      intros qs Hqs.
    + destruct qs; [|discriminate]. by exists [].
    + destruct qs as [|q qs]; [discriminate|]. simpl in Hqs.
      injection Hqs as Hq Hqs.
      destruct (IHalts qs Hqs) as (ts' & Hts' & Hsum').
      exists (map (Qcmult q) ts ++ ts'). split.
      * simpl. rewrite !map_app, Hts'. f_equal. rewrite map_map.
        assert (Hpaths : forall path, In path (leaf_paths a) ->
                  exists rest, path = spec_name a :: rest).
        { intros path Hin. destruct (leaf_paths_within a path Hin) as (rest & -> & _).
          eauto. }
        clear -Hts Hpaths Hq. revert ts Hts Hpaths.
        induction (leaf_paths a) as [|path paths IHp]; intros ts Hts Hpaths.
        -- destruct ts; [reflexivity|discriminate].
        -- destruct ts as [|t ts]; [discriminate|]. simpl in Hts.
           injection Hts as Ht Hts. simpl. f_equal.
           ++ destruct (Hpaths path (or_introl eq_refl)) as (rest & ->).
              simpl in *. rewrite Hq. by apply nanprod_cons_finite.
           ++ apply IHp; [done|]. intros p Hp. apply Hpaths. by right.
      * rewrite qsum_app, qsum_scale, Hsum, Hsum'. unfold qsum. simpl. ring.
Qed.

(** ** C3: flattened leaf probabilities *)

Section BaseProbabilities.
Context {X : Type}.
Implicit Types (rs : list (nat * X)) (cells rcells : nat * X -> list fval).

Lemma base_probabilities_step_fresh rnames rcells names cells (nest : Nest) :
  ~ In (name nest) names ->
  (forall m, In m (drop 1 (ancestors nest)) -> In m rnames) ->
  forall rs,
    base_probabilities_step (frame_of rs rnames rcells) (frame_of rs names cells) nest
    = Ret (frame_of rs (names ++ [name nest])
             (fun kr => cells kr
                        ++ [nanprod (map (cell_named rnames (rcells kr))
                                       (drop 1 (ancestors nest)))])).
Proof.
  intros Hfresh Hanc rs. unfold base_probabilities_step. cbn zeta.
  destruct (positions_found (drop 1 (ancestors nest)) rnames Hanc)
    as (ps & Hps & Hcells).
  rewrite getitems_frame_of, Hps. simpl.
  rewrite prod_axis1_frame_of, setitem_frame_of.
  assert (Hpos : position (name nest) names = None).
  { apply position_None. by rewrite list_elem_of_In. }
  rewrite Hpos. f_equal. apply frame_of_ext. intros kr _. by rewrite Hcells.
Qed.

Lemma base_probabilities_loop rnames rcells (nests : list Nest) :
  forall names cells,
  NoDup (names ++ map name nests) ->
  (forall nest, In nest nests ->
     forall m, In m (drop 1 (ancestors nest)) -> In m rnames) ->
  forall rs,
    for_fold (base_probabilities_step (frame_of rs rnames rcells))
      (frame_of rs names cells) nests
    = Ret (frame_of rs (names ++ map name nests)
             (fun kr => cells kr
                        ++ map (fun nest =>
                                  nanprod (map (cell_named rnames (rcells kr))
                                             (drop 1 (ancestors nest))))
                             nests)).
Proof.
  induction nests as [|nest rest IH]; intros names cells Hnd Hanc rs.
  - simpl. rewrite app_nil_r. f_equal. apply frame_of_ext. intros kr _.
    by rewrite app_nil_r.
  - cbn [for_fold].
    rewrite base_probabilities_step_fresh.
    + simpl. rewrite IH.
      * rewrite <- app_assoc. simpl. f_equal. apply frame_of_ext. intros kr _.
        by rewrite <- app_assoc.
      * by rewrite <- app_assoc.
      * intros nest' Hin. apply Hanc. by right.
    + apply NoDup_app in Hnd as (_ & Hdisj & _). intros Hin.
      apply (Hdisj (name nest)); [by apply list_elem_of_In|]. left.
    + apply Hanc. by left.
Qed.

End BaseProbabilities.

Lemma each_nest_leaves (t : nest_spec) :
  each_nest t (Some leaf) false
  = List.filter is_leaf (_each_nest false true fone [] t).
Proof. unfold each_nest. apply List.filter_ext. intros nest. apply leaf_test. Qed.

(** The result of [compute_base_probabilities], row by row. *)
Lemma base_probabilities_cells (nested_probabilities : DataFrame) (t : nest_spec) :
  NoDup (tree_names t) ->
  (forall m, In m (drop 1 (tree_names t)) -> In m (columns nested_probabilities)) ->
  NoDup (leaf_names t)
  /\ compute_base_probabilities nested_probabilities t
     = Ret (frame_of (rows nested_probabilities) (leaf_names t)
              (fun kr => map (fun path =>
                                nanprod (map (cell_named (columns nested_probabilities) kr.2)
                                           (drop 1 path)))
                           (leaf_paths t))).
Proof.
  intros Hnd Hcols.
  destruct (leaf_records t true fone []) as [Hnames Hpaths]. cbn zeta in *.
  rewrite <- each_nest_leaves in Hnames, Hpaths.
  rewrite map_ext with (g := fun x => x) in Hpaths by done.
  rewrite map_id in Hpaths.
  assert (Hnd' : NoDup (leaf_names t)).
  { rewrite <- Hnames, each_nest_leaves. apply NoDup_map_filter.
    by rewrite (each_nest_names t false true fone []). }
  split; [exact Hnd'|].
  unfold compute_base_probabilities, index. rewrite new_frame_frame_of.
  assert (Hanc : forall nest, In nest (each_nest t (Some leaf) false) ->
            forall m, In m (drop 1 (ancestors nest)) ->
              In m (columns nested_probabilities)).
  { intros nest Hin m Hm.
    assert (Hpath : In (ancestors nest) (leaf_paths t)).
    { rewrite <- Hpaths. by apply in_map. }
    destruct (leaf_paths_within t _ Hpath) as (rest & Heq & Hrest).
    rewrite Heq in Hm. simpl in Hm. by apply Hcols, Hrest. }
  pose proof (base_probabilities_loop (columns nested_probabilities) snd
                (each_nest t (Some leaf) false) [] (fun _ => [])) as Hloop.
  cbn [app] in Hloop. rewrite Hnames in Hloop.
  specialize (Hloop Hnd' Hanc (rows nested_probabilities)).
  rewrite <- frame_of_rows in Hloop. rewrite Hloop.
  f_equal. apply frame_of_ext. intros kr _. rewrite <- Hpaths.
  by rewrite map_map.
Qed.




(** ** C6: bad probabilities are flagged and sampled all the same *)

Section BadProbabilities.
Context `{World}.

Lemma threshold_times_one : fmul BAD_PROB_THRESHOLD fone = BAD_PROB_THRESHOLD.
Proof. unfold BAD_PROB_THRESHOLD, fone, fmul. by rewrite Qcmult_1_r. Qed.

Lemma filter_zip_keys {A} (g : nat * A -> bool) (rs : list (nat * A)) :
  map fst (List.filter snd (zip (map fst rs) (map g rs)))
  = map fst (List.filter g rs).
Proof.
  induction rs as [|kr rs IH]; simpl; [reflexivity|].
  destruct (g kr); simpl; by rewrite IH.
Qed.

Lemma existsb_filter {A} (g : A -> bool) (rs : list A) :
  existsb id (map g rs) = negb (bool_decide (List.filter g rs = [])).
Proof.
  induction rs as [|kr rs IH]; simpl; [reflexivity|].
  destruct (g kr); simpl; [reflexivity|exact IH].
Qed.

Lemma no_choices_rows (base : DataFrame) :
  no_choices_of base = map (fun kr => bad_prob_row kr.2) (rows base).
Proof.
  unfold no_choices_of, sum_axis1, bad_prob_row.
  rewrite threshold_times_one. by rewrite map_map.
Qed.

Lemma flagged_keys (base : DataFrame) :
  map fst (List.filter snd (zip (index base) (no_choices_of base)))
  = bad_rows base.
Proof.
  rewrite no_choices_rows. unfold index, bad_rows.
  apply (filter_zip_keys (fun kr => bad_prob_row kr.2) (rows base)).
Qed.

Lemma any_flagged (base : DataFrame) :
  existsb id (no_choices_of base) = negb (bool_decide (bad_rows base = [])).
Proof.
  rewrite no_choices_rows, existsb_filter. unfold bad_rows. f_equal.
  apply bool_decide_ext. split; [by intros ->|].
  by destruct (List.filter _ _).
Qed.

Lemma eval_nl_choose_run (trace_label : option string) (base : DataFrame) :
  outcome (eval_nl_choose trace_label base)
  = (cr ← make_choices base; Ret (no_choices_of base, cr.1, cr.2))
  /\ events (eval_nl_choose trace_label base)
     = if decide (bad_rows base = []) then []
       else [BadChoices (extend_trace_label trace_label "eval_nl") "bad_probs"
               "base_probabilities all zero" (bad_rows base)].
Proof.
  unfold eval_nl_choose, report_bad_choices. rewrite any_flagged, flagged_keys.
  destruct (decide (bad_rows base = [])) as [Hnone|Hsome].
  - rewrite bool_decide_eq_true_2 by done. simpl.
    destruct (make_choices base) as [e|[choices rands]]; by split.
  - rewrite bool_decide_eq_false_2 by done. simpl.
    destruct (make_choices base) as [e|[choices rands]]; by split.
Qed.

Lemma eval_nl_choose_eq (trace_label : option string) (base : DataFrame) :
  eval_nl_choose trace_label base
  = mkRun (cr ← make_choices base; Ret (no_choices_of base, cr.1, cr.2))
      (if decide (bad_rows base = []) then []
       else [BadChoices (extend_trace_label trace_label "eval_nl") "bad_probs"
               "base_probabilities all zero" (bad_rows base)]).
Proof. apply run_eq; apply eval_nl_choose_run. Qed.

Lemma for_each_keys {A B} (f : nat * A -> Exc (nat * B)) (l : list (nat * A))
    (out : list (nat * B)) :
  (forall kr y, f kr = Ret y -> y.1 = kr.1) ->
  for_each f l = Ret out -> map fst out = map fst l.
Proof.
  intros Hkey. revert out. induction l as [|kr l IH]; intros out; simpl.
  - by intros [= <-].
  - destruct (f kr) as [e|y] eqn:E; simpl; [discriminate|].
    destruct (for_each f l) as [e|ys]; simpl; [discriminate|].
    intros [= <-]. simpl. by rewrite (Hkey kr y E), (IH ys).
Qed.

(** The sampler answers for every row it is given, in order. *)
Lemma make_choices_index (probs : DataFrame) choices rands :
  make_choices probs = Ret (choices, rands) ->
  map fst choices = index probs /\ map fst rands = index probs.
Proof.
  unfold make_choices. intros Hrun.
  destruct (for_each _ (rows probs)) as [e|cs] eqn:E; simpl in Hrun; [discriminate|].
  injection Hrun as <- <-. split.
  - eapply for_each_keys; [|exact E]. intros kr y. cbn beta.
    destruct (first_exceeding (random_for_key kr.1) fzero kr.2 0);
      [|discriminate]. by intros [= <-].
  - by rewrite map_map.
Qed.

Lemma bad_prob_row_finite (r : list fval) (q : Qc) :
  nansum r = Fin q ->
  bad_prob_row r = true <-> (Q2Qc 0.001 < Qcabs (q - 1))%Qc.
Proof.
  intros Hq. unfold bad_prob_row, BAD_PROB_THRESHOLD. rewrite Hq. simpl.
  apply bool_decide_eq_true.
Qed.

(** C6.  Once [eval_nl] has the flattened probabilities [base]: the rows it
    flags are those whose probabilities sum to a value further than 0.001
    from one; they are named in one record, written only when there is such
    a row; the call then goes on to the sampler with every row of [base],
    flagged or not, and its outcome is the sampler's. *)
Theorem eval_nl_flags_bad_probabilities (choosers : Choosers) (spec : Spec)
    (nest_spec : nest_spec) (locals_d : option dict)
    (trace_label : option string)
    (ev raw nexp nprob base : DataFrame) (w : list event) :
  eval_nl_probabilities choosers spec nest_spec locals_d
    = mkRun (Ret (ev, raw, nexp, nprob, base)) w ->
  outcome (eval_nl choosers spec nest_spec locals_d trace_label)
    = (cr ← make_choices base; Ret cr.1)
  /\ (forall choices,
        outcome (eval_nl choosers spec nest_spec locals_d trace_label) = Ret choices ->
        map fst choices = index base)
  /\ (exists traces,
        Forall is_trace traces
        /\ events (eval_nl choosers spec nest_spec locals_d trace_label)
           = w ++ (if decide (bad_rows base = []) then []
                   else [BadChoices
                           (extend_trace_label (extend_trace_label trace_label "nl")
                              "eval_nl")
                           "bad_probs" "base_probabilities all zero"
                           (bad_rows base)])
               ++ traces)
  /\ (forall r q, nansum r = Fin q ->
        bad_prob_row r = true <-> (Q2Qc 0.001 < Qcabs (q - 1))%Qc).
Proof.
  intros Hprobs.
  assert (Hout : outcome (eval_nl choosers spec nest_spec locals_d trace_label)
                 = (cr ← make_choices base; Ret cr.1)).
  { unfold eval_nl, eval_nl_locals. rewrite Hprobs. cbn zeta.
    generalize (truthy (extend_trace_label trace_label "nl")
                && has_trace_targets choosers).
    intros have_trace_targets.
    rewrite !outcome_bind. cbn [outcome mbind Exc_bind].
    rewrite outcome_bind.
    rewrite (proj1 (eval_nl_choose_run _ base)).
    destruct (make_choices base) as [e|[choices rands]]; [reflexivity|].
    cbn. rewrite outcome_bind.
    by destruct have_trace_targets. }
  split; [exact Hout|]. split; [|split; [|apply bad_prob_row_finite]].
  - intros choices Hchoices. rewrite Hout in Hchoices.
    destruct (make_choices base) as [e|[cs rands]] eqn:E; [discriminate|].
    simpl in Hchoices. injection Hchoices as <-.
    by apply (make_choices_index base cs rands).
  - unfold eval_nl, eval_nl_locals. rewrite Hprobs. cbn zeta.
    generalize (truthy (extend_trace_label trace_label "nl")
                && has_trace_targets choosers).
    intros have_trace_targets.
    rewrite bind_ret. cbn beta iota.
    rewrite (eval_nl_choose_eq (extend_trace_label trace_label "nl") base).
    destruct (make_choices base) as [e|[choices rands]].
    + exists []. split; [constructor|]. cbn. by rewrite !app_nil_r.
    + destruct have_trace_targets.
      * cbn. rewrite ?app_nil_r. eexists. split; [|reflexivity].
        repeat constructor.
      * exists []. split; [constructor|]. cbn. by rewrite !app_nil_r.
Qed.

End BadProbabilities.

Lemma eval_nl_flags_bad_probabilities_witness :
  let W := Example.world (fun _ => Fin (Q2Qc 0.5)) in
  let t := NestNode "root" fone
             [NestNode "transit" (Fin (Q2Qc 0.5))
                [Alternative "bus"; Alternative "rail"];
              Alternative "car"] in
  let choosers : Choosers := mkFrame ["u"] [(8, [SFloat NegInf])] in
  let spec : Spec := mkFrame ["bus"; "rail"; "car"] [("u", [SInt 1; SInt 1; SInt 1])] in
  exists ev raw nexp nprob base w,
    eval_nl_probabilities choosers spec t None
      = mkRun (Ret (ev, raw, nexp, nprob, base)) w
    /\ bad_rows base = [8]
    /\ outcome (eval_nl choosers spec t None None)
       = (cr ← make_choices base; Ret cr.1)
    /\ exists traces,
         Forall is_trace traces
         /\ events (eval_nl choosers spec t None None)
            = w ++ [BadChoices None "bad_probs" "base_probabilities all zero" [8]]
                ++ traces.
Proof.
  intros W t choosers spec.
  destruct (eval_nl_probabilities choosers spec t None)
    as [[e|[[[[ev raw] nexp] nprob] base]] w] eqn:E;
    [vm_compute in E; discriminate|].
  assert (Hbad : bad_rows base = [8]).
  { pose proof (f_equal (fun r : Run _ =>
                           match outcome r with
                           | Ret (_, _, _, _, b) => bad_rows b
                           | Raise _ => []
                           end) E) as Hb.
    vm_compute in Hb. exact (eq_sym Hb). }
  exists ev, raw, nexp, nprob, base, w. split; [reflexivity|].
  split; [exact Hbad|].
  destruct (eval_nl_flags_bad_probabilities choosers spec t None None
              ev raw nexp nprob base w E) as (Hout & _ & Hevents & _).
  split; [exact Hout|]. rewrite Hbad in Hevents. exact Hevents.
Defined.

(** ** Indexes along the pipeline *)

Section Indexes.
Context `{World}.

Lemma eval_loop_returns (df : Choosers) (exprs : list string) :
  forall (d : dict) value_list,
    outcome (eval_loop df d exprs) = Ret value_list ->
    value_list.*1 = exprs /\ events (eval_loop df d exprs) = [].
Proof.
  induction exprs as [|e rest IH]; intros d value_list; simpl.
  - by intros [= <-].
  - destruct (eval_expr e df d) as [[err|v] d']; simpl; [discriminate|].
    destruct (eval_loop df d' rest) as [[err|vl] w] eqn:E; simpl; [discriminate|].
    intros [= <-]. destruct (IH d' vl) as [Hfst Hev]; [by rewrite E|].
    rewrite E in Hev. simpl in Hev. subst w.
    split; [cbn; by f_equal | reflexivity].
Qed.

Lemma index_from_items {V} `{Inhabited V} (idx : list nat)
    (items : list (string * list V)) :
  index (from_items idx items) = idx.
Proof.
  unfold index, from_items. simpl. apply list_eq. intros i.
  rewrite list_lookup_fmap, list_lookup_imap. by destruct (idx !! i).
Qed.

(** A returning [eval_variables] logged nothing and yields one row per
    chooser and one column per expression, in order. *)
Lemma eval_variables_returns (exprs : list string) (df : Choosers)
    (locals_d : option dict) (values : DataFrame) :
  outcome (eval_variables exprs df locals_d) = Ret values ->
  index values = index df /\ columns values = exprs
  /\ events (eval_variables exprs df locals_d) = [].
Proof.
  unfold eval_variables.
  destruct (eval_loop df (bind_locals exprs df locals_d) exprs)
    as [[err|vl] w] eqn:E; simpl; [discriminate|].
  destruct (eval_loop_returns df exprs (bind_locals exprs df locals_d) vl)
    as [Hfst Hev]; [by rewrite E|].
  rewrite E in Hev. simpl in Hev. subst w.
  destruct vl as [|item vl]; simpl; [discriminate|].
  intros [= <-]. rewrite index_astype, index_from_items. by rewrite <- Hfst.
Qed.

Lemma dot_returns (left : DataFrame) (right : Frame string fval) (u : DataFrame) :
  dot left right = Ret u -> index u = index left /\ columns u = columns right.
Proof.
  unfold dot. destruct (aligned _ _); [|discriminate]. intros [= <-].
  split; [|reflexivity]. unfold index. simpl. by rewrite <- list_fmap_compose.
Qed.

Lemma utils_to_probs_returns (utils probs : DataFrame) (e a : bool) :
  utils_to_probs utils e a = Ret probs ->
  index probs = index utils /\ columns probs = columns utils.
Proof.
  unfold utils_to_probs.
  destruct (for_each _ (rows utils)) as [err|rs] eqn:E; simpl; [discriminate|].
  intros [= <-]. split; [|reflexivity]. unfold index. simpl.
  eapply for_each_keys; [|exact E]. intros kr y. cbn beta.
  destruct (utils_to_probs_row e a kr.2); simpl; [discriminate|].
  by intros [= <-].
Qed.

Lemma make_choices_rands (probs : DataFrame) choices rands :
  make_choices probs = Ret (choices, rands) ->
  rands = map (fun k => (k, random_for_key k)) (index probs).
Proof.
  unfold make_choices.
  destruct (for_each _ (rows probs)) as [e|cs]; simpl; [discriminate|].
  intros [= _ <-]. unfold index. by rewrite map_map.
Qed.

End Indexes.

(** ** C8: what an evaluation call hands back *)

Section Delivered.
Context `{World}.


End Delivered.


